(** * LogicFlow avoidance edge router: a shallow embedding

    The development follows [AvoidanceEdgePlugin] (the plugin whose
    [calculatePath] searches a lattice of bend points) and, for the
    treatment of repeated points, the sibling [AvoidancePlugin] of the
    extension package ([updateEdgePath]).

    Coordinates are JavaScript numbers in the source.  They are modelled
    as rationals [Q]: every operation the router applies to a coordinate
    (sum, difference, product, halving, comparison) is exact on [Q], as it
    is on the integer and half-integer pixel coordinates of a diagram.
    The source's [===] on numbers is numeric equality, [Qeq_bool]. *)

From Stdlib Require Import QArith Qminmax Lqa Lia List Bool Arith String.
Import ListNotations.

Local Open Scope Q_scope.

(** ** Data *)

Record Point : Type := mkPoint { x : Q; y : Q }.

(** The bounding box a node model reports: [{ minX, minY, maxX, maxY }]. *)
Record Rect : Type := mkRect { minX : Q; minY : Q; maxX : Q; maxY : Q }.

(** What the router reads of a node model: its [id], the result of
    [getBBox()] and the result of [getAnchorPosition()] (a falsy value is
    [None]). *)
Record NodeModel : Type := mkNode {
  id : string;
  getBBox : Rect;
  getAnchorPosition : option Point
}.

(** What the router reads of an edge model.  Every field may be
    [undefined] in the source. *)
Record EdgeModel : Type := mkEdge {
  startPoint : option Point;
  endPoint : option Point;
  pointsList : option (list Point)
}.

Definition Path : Type := list Point.

(** ** Geometry primitives *)

Module Geometry.

(** The test the source writes inline three times in
    [isLineIntersectingRect]:
    [p.x >= rect.minX && p.x <= rect.maxX && p.y >= rect.minY && p.y <= rect.maxY]. *)
Definition pointInRect (p : Point) (rect : Rect) : bool :=
  Qle_bool (minX rect) (x p) && Qle_bool (x p) (maxX rect) &&
  Qle_bool (minY rect) (y p) && Qle_bool (y p) (maxY rect).

(** [val > 0] on numbers. *)
Definition Qgt_bool (a b : Q) : bool := negb (Qle_bool a b).

(** [orientation(p, q, r)]: 0 collinear, 1 clockwise, 2 counterclockwise. *)
Definition orientation (p q r : Point) : nat :=
  let val := (y q - y p) * (x r - x q) - (x q - x p) * (y r - y q) in
  if Qeq_bool val 0 then 0%nat
  else if Qgt_bool val 0 then 1%nat else 2%nat.

Definition onSegment (p q r : Point) : bool :=
  Qle_bool (x q) (Qmax (x p) (x r)) && Qle_bool (Qmin (x p) (x r)) (x q) &&
  Qle_bool (y q) (Qmax (y p) (y r)) && Qle_bool (Qmin (y p) (y r)) (y q).

Definition doLineSegmentsIntersect (p1 p2 p3 p4 : Point) : bool :=
  let o1 := orientation p1 p2 p3 in
  let o2 := orientation p1 p2 p4 in
  let o3 := orientation p3 p4 p1 in
  let o4 := orientation p3 p4 p2 in
  if negb (Nat.eqb o1 o2) && negb (Nat.eqb o3 o4) then true
  else if Nat.eqb o1 0 && onSegment p1 p3 p2 then true
  else if Nat.eqb o2 0 && onSegment p1 p4 p2 then true
  else if Nat.eqb o3 0 && onSegment p3 p1 p4 then true
  else if Nat.eqb o4 0 && onSegment p3 p2 p4 then true
  else false.

(** One side of the rectangle, [{ x1, y1, x2, y2 }]. *)
Record Side : Type := mkSide { x1 : Q; y1 : Q; x2 : Q; y2 : Q }.

(** The four sides in the order of the source's [segments] array. *)
Definition segments (rect : Rect) : list Side :=
  [ mkSide (minX rect) (minY rect) (maxX rect) (minY rect);
    mkSide (maxX rect) (minY rect) (maxX rect) (maxY rect);
    mkSide (maxX rect) (maxY rect) (minX rect) (maxY rect);
    mkSide (minX rect) (maxY rect) (minX rect) (minY rect) ].

(** The [for (const seg of segments)] loop: [true] at the first side the
    segment meets. *)
Fixpoint anySideIntersects (p1 p2 : Point) (segs : list Side) : bool :=
  match segs with
  | [] => false
  | seg :: rest =>
      if doLineSegmentsIntersect p1 p2
           (mkPoint (x1 seg) (y1 seg)) (mkPoint (x2 seg) (y2 seg))
      then true
      else anySideIntersects p1 p2 rest
  end.

Definition isLineIntersectingRect (p1 p2 : Point) (rect : Rect) : bool :=
  if Qeq_bool (x p1) (x p2) && Qeq_bool (y p1) (y p2) then
    pointInRect p1 rect
  else if pointInRect p1 rect then true
  else if pointInRect p2 rect then true
  else anySideIntersects p1 p2 (segments rect).

(** [isPathIntersectingNode]'s loop over [i], [i+1]; a path of fewer
    than two points has no segment and gives [false]. *)
Fixpoint isPathIntersectingRect (pathPoints : Path) (nodeBBox : Rect) : bool :=
  match pathPoints with
  | p1 :: ((p2 :: _) as rest) =>
      if isLineIntersectingRect p1 p2 nodeBBox then true
      else isPathIntersectingRect rest nodeBBox
  | _ => false
  end.

Definition isPathIntersectingNode (pathPoints : Path) (node : NodeModel) : bool :=
  isPathIntersectingRect pathPoints (getBBox node).

End Geometry.

(** ** The router: [calculatePath] *)

Module Router.
Import Geometry.

(** [minObstructions] starts at [Infinity] and then holds counts. *)
Inductive Count : Type :=
  | Finite (n : nat)
  | Infinity.

(** [obsCount < minObstructions] *)
Definition ltCount (n : nat) (m : Count) : bool :=
  match m with
  | Finite k => Nat.ltb n k
  | Infinity => true
  end.

(** [minObstructions === 0] *)
Definition isZero (m : Count) : bool :=
  match m with
  | Finite k => Nat.eqb k 0
  | Infinity => false
  end.

(** [minObstructions > 0] *)
Definition isPositive (m : Count) : bool :=
  match m with
  | Finite k => Nat.ltb 0 k
  | Infinity => true
  end.

(** The two variables the search updates together. *)
Record SearchState : Type := mkSearch {
  bestPath : option Path;
  minObstructions : Count
}.

Definition initialSearch : SearchState := mkSearch None Infinity.

(** [const offsets = [0, 20, -20, 40, -40, 60, -60]] *)
Definition offsets : list Q := [0; 20; -(20); 40; -(40); 60; -(60)].

(** [allNodes.filter(node => node.id !== sourceNode.id && node.id !== targetNode.id)] *)
Definition obstaclesOf (sourceNode targetNode : NodeModel)
    (allNodes : list NodeModel) : list NodeModel :=
  filter (fun node => negb (String.eqb (id node) (id sourceNode)) &&
                      negb (String.eqb (id node) (id targetNode))) allNodes.

(** The loop that sets [pathIsObstructed]: stops at the first obstacle
    the path meets. *)
Fixpoint anyObstacleIntersects (p : Path) (obstacles : list NodeModel) : bool :=
  match obstacles with
  | [] => false
  | obsNode :: rest =>
      if isPathIntersectingNode p obsNode then true
      else anyObstacleIntersects p rest
  end.

(** [checkAndCountObstructions]: the loop with the counter
    [obstructions], here threaded as an accumulator. *)
Fixpoint countFrom (obstructions : nat) (p : Path)
    (obstacles : list NodeModel) : nat :=
  match obstacles with
  | [] => obstructions
  | obsNode :: rest =>
      if isPathIntersectingNode p obsNode
      then countFrom (S obstructions) p rest
      else countFrom obstructions p rest
  end.

Definition checkAndCountObstructions (obstacles : list NodeModel) (p : Path) : nat :=
  countFrom 0 p obstacles.

(** [if (obsCount < minObstructions) { minObstructions = obsCount; bestPath = p; }] *)
Definition consider (obstacles : list NodeModel) (p : Path) (st : SearchState) : SearchState :=
  let obsCount := checkAndCountObstructions obstacles p in
  if ltCount obsCount (minObstructions st)
  then mkSearch (Some p) (Finite obsCount)
  else st.

(** A [for] loop whose last statement is
    [if (minObstructions === 0) break;]. *)
Fixpoint forUntilClear {A : Type} (body : A -> SearchState -> SearchState)
    (items : list A) (st : SearchState) : SearchState :=
  match items with
  | [] => st
  | a :: rest =>
      let st' := body a st in
      if isZero (minObstructions st') then st'
      else forUntilClear body rest st'
  end.

Section SearchLoops.

Variables startPoint endPoint : Point.
Variable obstacles : list NodeModel.
Variable pathIsObstructed : bool.

Definition startCopy : Point := mkPoint (x startPoint) (y startPoint).
Definition endCopy : Point := mkPoint (x endPoint) (y endPoint).

Definition midX : Q := (x startPoint + x endPoint) / 2.
Definition midY : Q := (y startPoint + y endPoint) / 2.

(** [path1], through [intermediatePoint1] *)
Definition path1 (dx dy : Q) : Path :=
  [ startCopy; mkPoint (midX + dx) (y startPoint + dy); endCopy ].

(** [path2], through [intermediatePoint2] *)
Definition path2 (dx dy : Q) : Path :=
  [ startCopy; mkPoint (midX + dx) (y endPoint + dy); endCopy ].

(** The inner [for (const dy of offsets)] loop of the single-bend search,
    with its [continue] and its two [break]s. *)
Fixpoint singleBendInner (dx : Q) (dys : list Q) (st : SearchState) : SearchState :=
  match dys with
  | [] => st
  | dy :: rest =>
      if Qeq_bool dx 0 && Qeq_bool dy 0 && pathIsObstructed
      then singleBendInner dx rest st
      else
        let obsCount1 := checkAndCountObstructions obstacles (path1 dx dy) in
        let st1 := consider obstacles (path1 dx dy) st in
        if Nat.eqb obsCount1 0 then st1
        else
          let obsCount2 := checkAndCountObstructions obstacles (path2 dx dy) in
          let st2 := consider obstacles (path2 dx dy) st1 in
          if Nat.eqb obsCount2 0 then st2
          else singleBendInner dx rest st2
  end.

(** The outer [for (const dx of offsets)] loop. *)
Definition singleBend (st : SearchState) : SearchState :=
  forUntilClear (fun dx => singleBendInner dx offsets) offsets st.

(** [candidatePath] of the double-bend search *)
Definition candidatePath (dx1 dy1 dx2 dy2 : Q) : Path :=
  [ startCopy;
    mkPoint (x startPoint + dx1) (midY + dy1);
    mkPoint (x endPoint + dx2) (midY + dy2);
    endCopy ].

(** The four nested loops over [dx1], [dy1], [dx2], [dy2], innermost
    first; each ends with [if (minObstructions === 0) break;]. *)
Definition loopDy2 (dx1 dy1 dx2 : Q) (st : SearchState) : SearchState :=
  forUntilClear
    (fun dy2 => consider obstacles (candidatePath dx1 dy1 dx2 dy2)) offsets st.

Definition loopDx2 (dx1 dy1 : Q) (st : SearchState) : SearchState :=
  forUntilClear (fun dx2 => loopDy2 dx1 dy1 dx2) offsets st.

Definition loopDy1 (dx1 : Q) (st : SearchState) : SearchState :=
  forUntilClear (fun dy1 => loopDx2 dx1 dy1) offsets st.

Definition doubleBendLoops (st : SearchState) : SearchState :=
  forUntilClear loopDy1 offsets st.

(** [if (minObstructions > 0) { ... }] *)
Definition doubleBend (st : SearchState) : SearchState :=
  if isPositive (minObstructions st) then doubleBendLoops st else st.

Definition search : SearchState := doubleBend (singleBend initialSearch).

End SearchLoops.

(** [edge.startPoint || sourceNode.getAnchorPosition()] *)
Definition orElse {A : Type} (a b : option A) : option A :=
  match a with
  | Some v => Some v
  | None => b
  end.

Definition resolveStart (edge : EdgeModel) (sourceNode : NodeModel) : option Point :=
  orElse (startPoint edge) (getAnchorPosition sourceNode).

Definition resolveEnd (edge : EdgeModel) (targetNode : NodeModel) : option Point :=
  orElse (endPoint edge) (getAnchorPosition targetNode).

(** The two-point [potentialPath]. *)
Definition potentialPath (s e : Point) : Path := [ startCopy s; endCopy e ].

(** The last statement:
    [edge.pointsList && edge.pointsList.length > 0 ? edge.pointsList : potentialPath] *)
Definition fallbackPath (edge : EdgeModel) (s e : Point) : Path :=
  match pointsList edge with
  | Some (p :: ps) => p :: ps
  | _ => potentialPath s e
  end.

(** [calculatePath(edge, sourceNode, targetNode, allNodes)].  The result
    is [None] when the source returns an [undefined] [edge.pointsList]. *)
Definition calculatePath (edge : EdgeModel) (sourceNode targetNode : NodeModel)
    (allNodes : list NodeModel) : option Path :=
  match resolveStart edge sourceNode, resolveEnd edge targetNode with
  | Some s, Some e =>
      let obstacles := obstaclesOf sourceNode targetNode allNodes in
      let pathIsObstructed := anyObstacleIntersects (potentialPath s e) obstacles in
      if negb pathIsObstructed then Some (potentialPath s e)
      else
        let st := search s e obstacles pathIsObstructed in
        match bestPath st with
        | Some best => Some best
        | None => Some (fallbackPath edge s e)
        end
  | _, _ => pointsList edge
  end.

End Router.

(** ** The extension's [AvoidancePlugin]: the last step of [updateEdgePath] *)

Module Extension.

(** [point.x === self[index - 1].x && point.y === self[index - 1].y] *)
Definition samePoint (point previous : Point) : bool :=
  Qeq_bool (x point) (x previous) && Qeq_bool (y point) (y previous).

(** The filter's turns for [index > 0]; [previous] is [self[index - 1]],
    the neighbour in the list being filtered, kept or not. *)
Fixpoint filterAfter (previous : Point) (points : list Point) : list Point :=
  match points with
  | [] => []
  | point :: rest =>
      if negb (samePoint point previous)
      then point :: filterAfter point rest
      else filterAfter point rest
  end.

(** [newPointsList.filter((point, index, self) =>
       index === 0 || !(point.x === self[index - 1].x && point.y === self[index - 1].y))] *)
Definition filterConsecutiveDuplicates (newPointsList : list Point) : list Point :=
  match newPointsList with
  | [] => []
  | first :: rest => first :: filterAfter first rest
  end.

End Extension.

(** ** The count of the specification

    The specification's [pathObstructionCount] is written here from its
    words, to be compared with the count the selector computes: a sum
    over every consecutive point pair and every obstacle. *)

Module Spec.
Import Geometry.

Fixpoint consecutivePairs (points : Path) : list (Point * Point) :=
  match points with
  | p1 :: ((p2 :: _) as rest) => (p1, p2) :: consecutivePairs rest
  | _ => []
  end.

Definition hits (seg : Point * Point) (rect : Rect) : nat :=
  if isLineIntersectingRect (fst seg) (snd seg) rect then 1%nat else 0%nat.

Definition sumOver {A : Type} (f : A -> nat) (l : list A) : nat :=
  fold_right (fun a acc => (f a + acc)%nat) 0%nat l.

Definition pathObstructionCount (points : Path) (obstacles : list Rect) : nat :=
  sumOver (fun seg => sumOver (fun rect => hits seg rect) obstacles)
          (consecutivePairs points).

(** An obstacle met by at least one segment of the path. *)
Definition meetsPath (points : Path) (rect : Rect) : bool :=
  existsb (fun seg => isLineIntersectingRect (fst seg) (snd seg) rect)
          (consecutivePairs points).

(** No two neighbours of the path are the same point. *)
Fixpoint noConsecutiveDuplicates (points : Path) : Prop :=
  match points with
  | p1 :: ((p2 :: _) as rest) =>
      ~ (x p1 == x p2 /\ y p1 == y p2) /\ noConsecutiveDuplicates rest
  | _ => True
  end.

End Spec.

(** ** Vocabulary of the statements *)

Module Invariants.
Import Geometry Router.

(** The inclusive bounds of a rectangle, as a proposition. *)
Definition withinBounds (p : Point) (rect : Rect) : Prop :=
  minX rect <= x p /\ x p <= maxX rect /\ minY rect <= y p /\ y p <= maxY rect.

(** Two points at the same place: numerically equal coordinates. *)
Definition samePlace (p q : Point) : Prop := x p == x q /\ y p == y q.

(** The [continue] test of the single-bend search. *)
Definition skipped (dx dy : Q) (pathIsObstructed : bool) : bool :=
  Qeq_bool dx 0 && Qeq_bool dy 0 && pathIsObstructed.

Section Candidates.

Variables s e : Point.
Variable obstacles : list NodeModel.

Definition singleBendCandidate (p : Path) : Prop :=
  exists dx dy, In dx offsets /\ In dy offsets /\
    (p = path1 s e dx dy \/ p = path2 s e dx dy).

Definition doubleBendCandidate (p : Path) : Prop :=
  exists dx1 dy1 dx2 dy2,
    In dx1 offsets /\ In dy1 offsets /\ In dx2 offsets /\ In dy2 offsets /\
    p = candidatePath s e dx1 dy1 dx2 dy2.

Definition isCandidate (p : Path) : Prop :=
  singleBendCandidate p \/ doubleBendCandidate p.

(** The search has assigned [bestPath], to a candidate, and
    [minObstructions] is that candidate's count. *)
Definition Assigned (st : SearchState) : Prop :=
  exists p, bestPath st = Some p /\
            minObstructions st = Finite (checkAndCountObstructions obstacles p) /\
            isCandidate p.

(** [minObstructions] is a number, and at most [n]. *)
Definition atMost (st : SearchState) (n : nat) : Prop :=
  exists k, minObstructions st = Finite k /\ (k <= n)%nat.

(** [st'] is reached from [st] by ranking candidates, one [consider]
    at a time. *)
Inductive Steps : SearchState -> SearchState -> Prop :=
  | Steps_done (st : SearchState) : Steps st st
  | Steps_consider (st st' : SearchState) (p : Path) :
      isCandidate p -> Steps (consider obstacles p st) st' -> Steps st st'.

End Candidates.

End Invariants.

(** ** Concrete diagrams *)

Module Examples.
Import Geometry Router.

Local Open Scope string_scope.

Definition sourceNode : NodeModel := mkNode "source" (mkRect (-(50)) (-(40)) (-(10)) 40) None.
Definition targetNode : NodeModel := mkNode "target" (mkRect 1200 (-(40)) 1300 40) None.

Definition edgeBetween (s e : Point) : EdgeModel :=
  mkEdge (Some s) (Some e) None.

Definition obstacleNode (name : string) (rect : Rect) : NodeModel :=
  mkNode name rect None.

(** A node in the middle of a horizontal edge. *)
Definition blockedNodes : list NodeModel :=
  [ sourceNode; obstacleNode "middle" (mkRect 80 (-(20)) 120 20); targetNode ].

(** A node beside the edge, not on it. *)
Definition besideNodes : list NodeModel :=
  [ sourceNode; obstacleNode "beside" (mkRect 80 30 120 70); targetNode ].

(** A diagonal edge with one small node on it and four nodes flanking
    its two ends. *)
Definition flankedNodes : list NodeModel :=
  [ sourceNode;
    obstacleNode "onTheLine" (mkRect 300 300 310 310);
    obstacleNode "rightOfStart" (mkRect 100 (-(100)) 200 90);
    obstacleNode "aboveStart" (mkRect (-(100)) 100 90 200);
    obstacleNode "belowEnd" (mkRect 910 800 1100 900);
    obstacleNode "leftOfEnd" (mkRect 800 910 900 1100);
    targetNode ].

(** A node over the start anchor of a short vertical edge. *)
Definition coveringNodes : list NodeModel :=
  [ sourceNode; obstacleNode "cover" (mkRect (-(5)) (-(5)) 5 5); targetNode ].

(** An edge model without anchors: no start point of its own, and a
    source node that reports none. *)
Definition looseEdge : EdgeModel :=
  mkEdge None (Some (mkPoint 10 10)) (Some [mkPoint 1 2; mkPoint 3 4; mkPoint 5 6]).

End Examples.

(** ** Points, segments and rectangles of the plane *)

Module Plane.

(** The number whose sign [orientation] reports. *)
Definition turn (p q r : Point) : Q :=
  (y q - y p) * (x r - x q) - (x q - x p) * (y r - y q).

(** [q] is a point of the straight segment from [p] to [r]. *)
Definition liesOn (q p r : Point) : Prop :=
  exists t, 0 <= t /\ t <= 1 /\
    x q == x p + t * (x r - x p) /\ y q == y p + t * (y r - y p).


(** Some point of the segment from [p1] to [p2] is within the inclusive
    bounds of [rect]. *)
Definition segmentMeets (p1 p2 : Point) (rect : Rect) : Prop :=
  exists q, liesOn q p1 p2 /\ Invariants.withinBounds q rect.

(** Some point of some segment of the path is inside [rect]. *)
Fixpoint pathMeets (points : Path) (rect : Rect) : Prop :=
  match points with
  | p1 :: ((p2 :: _) as rest) => segmentMeets p1 p2 rect \/ pathMeets rest rect
  | _ => False
  end.

End Plane.

(** ** The extension's [AvoidancePlugin] *)

Module AvoidancePlugin.
Import Geometry.

(** The extension's [Rect]: [{ x, y, width, height }]. *)
Record Box : Type := mkBox { boxX : Q; boxY : Q; width : Q; height : Q }.

(** What [updateEdgePath] and [getExpandedNodeBox] read of a node model:
    [id], [x], [y], [width], [height]. *)
Record BaseNodeModel : Type := mkBaseNode {
  nodeId : string;
  nodeX : Q;
  nodeY : Q;
  nodeWidth : Q;
  nodeHeight : Q
}.

(** What [updateEdgePath] destructures from an edge model. *)
Record BaseEdgeModel : Type := mkBaseEdge {
  edgeStartPoint : option Point;
  edgeEndPoint : option Point;
  edgeSourceNode : option BaseNodeModel;
  edgeTargetNode : option BaseNodeModel
}.

(** [this.options], after the constructor has spread the defaults and
    the user's options into it. *)
Record Options : Type := mkOptions { avoidPadding : Q; enabled : bool }.

(** [defaultOptions] *)
Definition defaultOptions : Options := mkOptions 10 true.

Definition getExpandedNodeBox (nodeModel : BaseNodeModel) (padding : Q) : Box :=
  mkBox (nodeX nodeModel - nodeWidth nodeModel / 2 - padding)
        (nodeY nodeModel - nodeHeight nodeModel / 2 - padding)
        (nodeWidth nodeModel + padding * 2)
        (nodeHeight nodeModel + padding * 2).



(** [rectMinX], [rectMinY], [rectMaxX], [rectMaxY] of
    [isLineIntersectRect]. *)
Definition bounds (rect : Box) : Rect :=
  mkRect (boxX rect) (boxY rect)
         (boxX rect + width rect) (boxY rect + height rect).

(** The extension's [orientation], [onSegment] and
    [isLineSegmentsIntersect] are, expression for expression, the
    [orientation], [onSegment] and [doLineSegmentsIntersect] of the other
    plugin. *)
Definition isLineSegmentsIntersect (p1 q1 p2 q2 : Point) : bool :=
  doLineSegmentsIntersect p1 q1 p2 q2.

Definition isLineIntersectRect (p1 p2 : Point) (rect : Box) : bool :=
  let rectMinX := boxX rect in
  let rectMaxX := boxX rect + width rect in
  let rectMinY := boxY rect in
  let rectMaxY := boxY rect + height rect in
  if (Qle_bool rectMinX (x p1) && Qle_bool (x p1) rectMaxX &&
      Qle_bool rectMinY (y p1) && Qle_bool (y p1) rectMaxY) ||
     (Qle_bool rectMinX (x p2) && Qle_bool (x p2) rectMaxX &&
      Qle_bool rectMinY (y p2) && Qle_bool (y p2) rectMaxY)
  then true
  else if isLineSegmentsIntersect p1 p2
            (mkPoint rectMinX rectMinY) (mkPoint rectMaxX rectMinY) then true
  else if isLineSegmentsIntersect p1 p2
            (mkPoint rectMinX rectMaxY) (mkPoint rectMaxX rectMaxY) then true
  else if isLineSegmentsIntersect p1 p2
            (mkPoint rectMinX rectMinY) (mkPoint rectMinX rectMaxY) then true
  else if isLineSegmentsIntersect p1 p2
            (mkPoint rectMaxX rectMinY) (mkPoint rectMaxX rectMaxY) then true
  else false.

(** The inner [for (const obs of obstacles)] loop of a candidate's
    check. *)
Fixpoint segmentCollides (p q : Point) (obstacles : list Box) : bool :=
  match obstacles with
  | [] => false
  | obs :: rest =>
      if isLineIntersectRect p q obs then true
      else segmentCollides p q rest
  end.

(** The outer [for (let i = 0; i < candidatePath.length - 1; i++)] loop:
    the value [candidateCollision] ends with. *)
Fixpoint candidateCollision (candidatePath : list Point) (obstacles : list Box) : bool :=
  match candidatePath with
  | p :: ((q :: _) as rest) =>
      if segmentCollides p q obstacles then true
      else candidateCollision rest obstacles
  | _ => false
  end.

Section UpdateEdgePath.

Variable padding : Q.
Variables startPoint endPoint : Point.
Variable obstacles : list Box.

(** Horizontal, vertical, horizontal: above the obstacle. *)
Definition candidateAbove (obstacle : Box) : list Point :=
  let intermediateY := boxY obstacle - padding in
  [ startPoint;
    mkPoint (x startPoint) intermediateY;
    mkPoint (x endPoint) intermediateY;
    endPoint ].

(** Vertical, horizontal, vertical: left of the obstacle. *)
Definition candidateLeft (obstacle : Box) : list Point :=
  let intermediateX := boxX obstacle - padding in
  [ startPoint;
    mkPoint intermediateX (y startPoint);
    mkPoint intermediateX (y endPoint);
    endPoint ].

(** The [for (const obstacle of obstacles)] loop over the obstacles not
    yet looked at; it ends at the first one the direct line meets. *)
Fixpoint newPointsFrom (remaining : list Box) : list Point :=
  match remaining with
  | [] => [startPoint; endPoint]
  | obstacle :: rest =>
      if isLineIntersectRect startPoint endPoint obstacle then
        if negb (candidateCollision (candidateAbove obstacle) obstacles)
        then candidateAbove obstacle
        else if negb (candidateCollision (candidateLeft obstacle) obstacles)
        then candidateLeft obstacle
        else [startPoint; endPoint]
      else newPointsFrom rest
  end.

End UpdateEdgePath.

(** The [allNodes.forEach] that fills [obstacles]. *)
Definition obstaclesFor (padding : Q) (sourceNode targetNode : BaseNodeModel)
    (allNodes : list BaseNodeModel) : list Box :=
  map (fun node => getExpandedNodeBox node padding)
      (filter (fun node =>
                 negb (String.eqb (nodeId node) (nodeId sourceNode)) &&
                 negb (String.eqb (nodeId node) (nodeId targetNode)))
              allNodes).

(** [updateEdgePath(edgeModel)]: the value assigned to
    [edgeModel.pointsList], or [None] where the method returns before
    assigning. *)
Definition updateEdgePath (options : Options) (edgeModel : BaseEdgeModel)
    (allNodes : list BaseNodeModel) : option (list Point) :=
  if negb (enabled options) then None
  else
    match edgeStartPoint edgeModel, edgeEndPoint edgeModel,
          edgeSourceNode edgeModel, edgeTargetNode edgeModel with
    | Some startPoint, Some endPoint, Some sourceNode, Some targetNode =>
        let obstacles :=
          obstaclesFor (avoidPadding options) sourceNode targetNode allNodes in
        let newPointsList :=
          newPointsFrom (avoidPadding options) startPoint endPoint obstacles obstacles in
        Some (Extension.filterConsecutiveDuplicates newPointsList)
    | _, _, _, _ => None
    end.

(** *** Switching the plugin on and off *)

(** What the plugin asks of the diagram: [initialize] registers its
    five listeners, [detachEvents] removes them, [recalculateAllEdges]
    updates every edge. *)
Inductive HostCall : Type :=
  | AttachListeners
  | DetachListeners
  | RecalculateAllEdges.

(** [Partial<AvoidancePluginOptions>]: a key that is absent is [None]. *)
Record PartialOptions : Type := mkPartial {
  newAvoidPadding : option Q;
  newEnabled : option bool
}.

(** [{ ...this.options, ...newOptions }] *)
Definition spread (options : Options) (newOptions : PartialOptions) : Options :=
  mkOptions
    (match newAvoidPadding newOptions with
     | Some padding => padding
     | None => avoidPadding options
     end)
    (match newEnabled newOptions with
     | Some flag => flag
     | None => enabled options
     end).

(** The constructor: the options in force and the calls made. *)
Definition construct (options : PartialOptions) : Options * list HostCall :=
  let merged := spread defaultOptions options in
  (merged, if enabled merged then [AttachListeners] else []).

Definition enable (options : Options) : Options * list HostCall :=
  if negb (enabled options)
  then (mkOptions (avoidPadding options) true, [AttachListeners])
  else (options, []).

Definition disable (options : Options) : Options * list HostCall :=
  if enabled options
  then (mkOptions (avoidPadding options) false, [DetachListeners])
  else (options, []).

(** A number is truthy unless it is zero. *)
Definition truthy (n : option Q) : bool :=
  match n with
  | Some q => negb (Qeq_bool q 0)
  | None => false
  end.

(** [newOptions.avoidPadding !== this.options.avoidPadding] *)
Definition differsFrom (n : option Q) (q : Q) : bool :=
  match n with
  | Some q' => negb (Qeq_bool q' q)
  | None => true
  end.

Definition setOptions (options : Options) (newOptions : PartialOptions)
    : Options * list HostCall :=
  let oldEnabledState := enabled options in
  let merged := spread options newOptions in
  if enabled merged && negb oldEnabledState then
    (merged, [AttachListeners; RecalculateAllEdges])
  else if negb (enabled merged) && oldEnabledState then
    (merged, [DetachListeners])
  else if enabled merged && oldEnabledState then
    if truthy (newAvoidPadding newOptions) &&
       differsFrom (newAvoidPadding newOptions) (avoidPadding merged)
    then (merged, [RecalculateAllEdges])
    else (merged, [])
  else (merged, []).

(** The public operations after construction. *)
Inductive Operation : Type :=
  | Enable
  | Disable
  | SetOptions (newOptions : PartialOptions).

Definition perform (op : Operation) (options : Options) : Options * list HostCall :=
  match op with
  | Enable => enable options
  | Disable => disable options
  | SetOptions newOptions => setOptions options newOptions
  end.

(** A sequence of operations: the options at the end and every call
    made, in order. *)
Fixpoint performAll (ops : list Operation) (options : Options)
    : Options * list HostCall :=
  match ops with
  | [] => (options, [])
  | op :: rest =>
      let (options1, calls1) := perform op options in
      let (options2, calls2) := performAll rest options1 in
      (options2, calls1 ++ calls2)
  end.

(** Whether the listeners are registered after a sequence of calls that
    starts with [attached] listeners; [None] when a call registers
    listeners that are registered already or removes listeners that are
    not. *)
Fixpoint listenersAfter (attached : bool) (calls : list HostCall) : option bool :=
  match calls with
  | [] => Some attached
  | AttachListeners :: rest =>
      if attached then None else listenersAfter true rest
  | DetachListeners :: rest =>
      if attached then listenersAfter false rest else None
  | RecalculateAllEdges :: rest => listenersAfter attached rest
  end.

End AvoidancePlugin.

(** ** Concrete diagrams for the extension *)

Module ExtensionExamples.
Import AvoidancePlugin.

Local Open Scope string_scope.

Definition leftNode : BaseNodeModel := mkBaseNode "left" 0 0 20 20.
Definition rightNode : BaseNodeModel := mkBaseNode "right" 200 0 20 20.
Definition middleNode : BaseNodeModel := mkBaseNode "middle" 100 0 40 40.

Definition diagram : list BaseNodeModel := [leftNode; middleNode; rightNode].

(** An edge from the right side of [leftNode] to the left side of
    [rightNode]. *)
Definition acrossEdge : BaseEdgeModel :=
  mkBaseEdge (Some (mkPoint 10 0)) (Some (mkPoint 190 0))
             (Some leftNode) (Some rightNode).


End ExtensionExamples.

(** ** The caller of [calculatePath]: [rerouteEdge] *)

Module Reroute.
Import Router.

Local Open Scope string_scope.

(** What [rerouteEdge] reads of the edge data it is handed: [id] (which
    may be missing), [sourceNodeId], [targetNodeId], [startPoint],
    [endPoint]. *)
Record EdgeData : Type := mkEdgeData {
  edgeId : option string;
  sourceNodeId : string;
  targetNodeId : string;
  dataStartPoint : option Point;
  dataEndPoint : option Point
}.

(** What [rerouteEdge] asks of the diagram: [getGraphData().nodes],
    [getEdgeModelById], [getNodeModelById], and a node's
    [getAnchorPosition] called with a point. *)
Record Host : Type := mkHost {
  graphNodes : option (list NodeModel);
  getEdgeModelById : string -> option EdgeModel;
  getNodeModelById : string -> option NodeModel;
  getAnchorPositionAt : NodeModel -> option Point -> option Point
}.

(** [x || []] *)
Definition orEmpty {A : Type} (l : option (list A)) : list A :=
  match l with
  | Some v => v
  | None => []
  end.

(** [rerouteEdge(edge)]: the arguments of the one call of
    [updateEdgePoints] it makes, or [None] when it makes none. *)
Definition rerouteEdge (lf : Host) (edge : option EdgeData)
    : option (string * list Point) :=
  match edge with
  | None => None
  | Some edge =>
      match edgeId edge with
      | None => None
      | Some id =>
          if String.eqb id "" then None
          else
            let nodes := orEmpty (graphNodes lf) in
            match getEdgeModelById lf id with
            | None => None
            | Some currentEdgeModel =>
                match getNodeModelById lf (sourceNodeId edge),
                      getNodeModelById lf (targetNodeId edge) with
                | Some sourceNode, Some targetNode =>
                    match calculatePath currentEdgeModel sourceNode targetNode nodes with
                    | Some (p :: ps) => Some (id, p :: ps)
                    | _ =>
                        match getAnchorPositionAt lf sourceNode (dataStartPoint edge),
                              getAnchorPositionAt lf targetNode (dataEndPoint edge) with
                        | Some startPoint, Some endPoint =>
                            Some (id, [startPoint; endPoint])
                        | _, _ =>
                            let existingPoints := orEmpty (pointsList currentEdgeModel) in
                            if Nat.eqb (List.length existingPoints) 0
                            then Some (id, [])
                            else None
                        end
                    end
                | _, _ => None
                end
            end
      end
  end.

End Reroute.

(** ** A diagram as [rerouteEdge] sees it *)

Module RerouteExamples.
Import Reroute.

Local Open Scope string_scope.

(** One edge, "e1", from "source" to "target", in the diagram of
    [Examples.blockedNodes]. *)
Definition diagramHost (model : EdgeModel) : Host :=
  mkHost (Some Examples.blockedNodes)
         (fun id => if String.eqb id "e1" then Some model else None)
         (fun id => if String.eqb id "source" then Some Examples.sourceNode
                    else if String.eqb id "target" then Some Examples.targetNode
                    else None)
         (fun node _ => getAnchorPosition node).

Definition edgeData : EdgeData :=
  mkEdgeData (Some "e1") "source" "target" None None.

End RerouteExamples.

(** ** Geometry: properties *)

Section GeometryFacts.
Import Geometry Invariants.

Lemma pointInRect_spec (p : Point) (rect : Rect) :
  pointInRect p rect = true <-> withinBounds p rect.
Proof.
  unfold pointInRect, withinBounds.
  rewrite !andb_true_iff, !Qle_bool_iff. tauto.
Qed.

Lemma withinBounds_same_coordinates (p q : Point) (rect : Rect) :
  x p == x q -> y p == y q -> withinBounds p rect -> withinBounds q rect.
Proof.
  unfold withinBounds. intros Hx Hy H. rewrite <- Hx, <- Hy. exact H.
Qed.

Lemma trivial_segment_test (p1 p2 : Point) :
  Qeq_bool (x p1) (x p2) && Qeq_bool (y p1) (y p2) = true <->
  x p1 == x p2 /\ y p1 == y p2.
Proof.
  rewrite andb_true_iff, !Qeq_bool_iff. tauto.
Qed.

(** C10. [doLineSegmentsIntersect] gives the same answer when its two
    segments are exchanged. *)
Theorem doLineSegmentsIntersect_symmetric (p1 p2 p3 p4 : Point) :
  doLineSegmentsIntersect p1 p2 p3 p4 = doLineSegmentsIntersect p3 p4 p1 p2.
Proof.
  unfold doLineSegmentsIntersect.
  rewrite (Nat.eqb_sym (orientation p3 p4 p1) (orientation p3 p4 p2)).
  rewrite (Nat.eqb_sym (orientation p1 p2 p3) (orientation p1 p2 p4)).
  destruct (Nat.eqb (orientation p1 p2 p4) (orientation p1 p2 p3));
  destruct (Nat.eqb (orientation p3 p4 p2) (orientation p3 p4 p1));
  destruct (Nat.eqb (orientation p1 p2 p3) 0 && onSegment p1 p3 p2);
  destruct (Nat.eqb (orientation p1 p2 p4) 0 && onSegment p1 p4 p2);
  destruct (Nat.eqb (orientation p3 p4 p1) 0 && onSegment p3 p1 p4);
  destruct (Nat.eqb (orientation p3 p4 p2) 0 && onSegment p3 p2 p4);
  reflexivity.
Qed.

Lemma isLineIntersectingRect_endpoint (p1 p2 : Point) (rect : Rect) :
  pointInRect p1 rect = true \/ pointInRect p2 rect = true ->
  isLineIntersectingRect p1 p2 rect = true.
Proof.
  intro Hend. unfold isLineIntersectingRect.
  destruct (Qeq_bool (x p1) (x p2) && Qeq_bool (y p1) (y p2)) eqn:Htriv.
  - apply trivial_segment_test in Htriv. destruct Htriv as [Hx Hy].
    destruct Hend as [H1 | H2]; [exact H1|].
    apply pointInRect_spec. apply pointInRect_spec in H2.
    apply (withinBounds_same_coordinates p2 p1); auto using Qeq_sym.
  - destruct (pointInRect p1 rect) eqn:H1; [reflexivity|].
    destruct (pointInRect p2 rect) eqn:H2; [reflexivity|].
    destruct Hend; discriminate.
Qed.

(** C7. A segment with an endpoint within the inclusive bounds of the
    rectangle, its boundary included, intersects the rectangle. *)
Theorem isLineIntersectingRect_endpoint_inclusive
    (p1 p2 : Point) (rect : Rect)
    (Hend : withinBounds p1 rect \/ withinBounds p2 rect) :
  isLineIntersectingRect p1 p2 rect = true.
Proof.
  apply isLineIntersectingRect_endpoint.
  destruct Hend as [H | H]; [left | right]; apply pointInRect_spec; exact H.
Qed.

Lemma isLineIntersectingRect_endpoint_inclusive_witness :
  isLineIntersectingRect (mkPoint 0 0) (mkPoint 7 3) (mkRect 0 (-(4)) 5 0) = true.
Proof.
  apply isLineIntersectingRect_endpoint_inclusive.
  left. unfold withinBounds; simpl. repeat split; unfold Qle; simpl; lia.
Defined.

(** A segment of length zero is tested as a point. *)
Lemma isLineIntersectingRect_zero_length (p1 p2 : Point) (rect : Rect) :
  x p1 == x p2 -> y p1 == y p2 ->
  isLineIntersectingRect p1 p2 rect = pointInRect p1 rect.
Proof.
  intros Hx Hy. unfold isLineIntersectingRect.
  destruct (Qeq_bool (x p1) (x p2) && Qeq_bool (y p1) (y p2)) eqn:Htriv.
  - reflexivity.
  - assert (H : Qeq_bool (x p1) (x p2) && Qeq_bool (y p1) (y p2) = true)
      by (apply trivial_segment_test; auto).
    congruence.
Qed.

End GeometryFacts.

(** ** The counting loop *)

Section CountingFacts.
Import Geometry Router Spec.

Lemma isPathIntersectingRect_meetsPath (points : Path) (rect : Rect) :
  isPathIntersectingRect points rect = meetsPath points rect.
Proof.
  unfold meetsPath.
  induction points as [|p1 rest IH]; [reflexivity|].
  destruct rest as [|p2 rest]; [reflexivity|].
  change (consecutivePairs (p1 :: p2 :: rest))
    with ((p1, p2) :: consecutivePairs (p2 :: rest)).
  cbn [existsb fst snd]. rewrite <- IH. cbn [isPathIntersectingRect].
  destruct (isLineIntersectingRect p1 p2 rect); reflexivity.
Qed.

Lemma countFrom_accumulates (n : nat) (p : Path) (obstacles : list NodeModel) :
  countFrom n p obstacles = (n + countFrom 0 p obstacles)%nat.
Proof.
  revert n. induction obstacles as [|o rest IH]; intro n; cbn [countFrom].
  - lia.
  - destruct (isPathIntersectingNode p o).
    + rewrite (IH (S n)), (IH 1%nat). lia.
    + apply IH.
Qed.

Lemma checkAndCountObstructions_cons (o : NodeModel) (rest : list NodeModel) (p : Path) :
  checkAndCountObstructions (o :: rest) p =
  ((if isPathIntersectingNode p o then 1 else 0) +
   checkAndCountObstructions rest p)%nat.
Proof.
  unfold checkAndCountObstructions. cbn [countFrom].
  destruct (isPathIntersectingNode p o).
  - apply countFrom_accumulates.
  - reflexivity.
Qed.

Lemma anyObstacleIntersects_false (p : Path) (obstacles : list NodeModel) :
  anyObstacleIntersects p obstacles = false <->
  forall o, In o obstacles -> isPathIntersectingNode p o = false.
Proof.
  induction obstacles as [|o rest IH]; cbn [anyObstacleIntersects].
  - split; [intros _ o []|reflexivity].
  - destruct (isPathIntersectingNode p o) eqn:Ho.
    + split; [discriminate|]. intro H. rewrite <- Ho. apply H. left; reflexivity.
    + rewrite IH. split.
      * intros H o' [<- | Hin]; auto.
      * intros H o' Hin. apply H. right; exact Hin.
Qed.

Lemma checkAndCountObstructions_zero (p : Path) (obstacles : list NodeModel) :
  checkAndCountObstructions obstacles p = 0%nat <->
  anyObstacleIntersects p obstacles = false.
Proof.
  induction obstacles as [|o rest IH].
  - split; reflexivity.
  - rewrite checkAndCountObstructions_cons. cbn [anyObstacleIntersects].
    destruct (isPathIntersectingNode p o).
    + split; [lia | discriminate].
    + rewrite <- IH. split; lia.
Qed.

End CountingFacts.

(** ** The search: what every loop preserves *)

Section SearchFacts.
Import Geometry Router Invariants.

Variables s e : Point.
Variable obstacles : list NodeModel.

Local Abbreviation count := (checkAndCountObstructions obstacles).
Local Abbreviation Steps' := (Steps s e obstacles).
Local Abbreviation Assigned' := (Assigned s e obstacles).

Lemma isZero_atMost (st : SearchState) (n : nat) :
  isZero (minObstructions st) = true -> atMost st n.
Proof.
  unfold atMost. destruct (minObstructions st) as [k|]; cbn; [|discriminate].
  intro H. apply Nat.eqb_eq in H. exists k. split; [reflexivity | lia].
Qed.

Lemma consider_atMost (p : Path) (st : SearchState) :
  atMost (consider obstacles p st) (count p).
Proof.
  unfold consider, atMost.
  destruct (minObstructions st) as [k|] eqn:Hm; cbn [ltCount].
  - destruct (Nat.ltb (count p) k) eqn:Hlt; cbn.
    + eexists; split; [reflexivity | lia].
    + apply Nat.ltb_ge in Hlt. exists k. split; [exact Hm | exact Hlt].
  - cbn. eexists; split; [reflexivity | lia].
Qed.

Lemma consider_keeps_atMost (p : Path) (st : SearchState) (n : nat) :
  atMost st n -> atMost (consider obstacles p st) n.
Proof.
  unfold consider, atMost. intros [k [Hm Hk]]. rewrite Hm. cbn [ltCount].
  destruct (Nat.ltb (count p) k) eqn:Hlt; cbn.
  - apply Nat.ltb_lt in Hlt. eexists; split; [reflexivity | lia].
  - exists k. split; [exact Hm | exact Hk].
Qed.

Lemma consider_clear (p : Path) (st : SearchState) :
  count p = 0%nat -> isZero (minObstructions (consider obstacles p st)) = true.
Proof.
  intro H0. destruct (consider_atMost p st) as [k [Hm Hk]].
  rewrite Hm. cbn. apply Nat.eqb_eq. lia.
Qed.

Lemma consider_assigns (p : Path) (st : SearchState) :
  isCandidate s e p ->
  Assigned' st \/ minObstructions st = Infinity ->
  Assigned' (consider obstacles p st).
Proof.
  intros Hp Hst. unfold consider.
  destruct (ltCount (count p) (minObstructions st)) eqn:Hlt.
  - exists p. cbn. auto.
  - destruct Hst as [Hst | Hinf]; [exact Hst|].
    rewrite Hinf in Hlt. discriminate.
Qed.

Lemma Steps_trans (st1 st2 st3 : SearchState) :
  Steps' st1 st2 -> Steps' st2 st3 -> Steps' st1 st3.
Proof.
  induction 1 as [st | st st' p Hp _ IH]; intro H23.
  - exact H23.
  - apply (Steps_consider s e obstacles st st3 p Hp). apply IH. exact H23.
Qed.

Lemma Steps_one (p : Path) (st : SearchState) :
  isCandidate s e p -> Steps' st (consider obstacles p st).
Proof.
  intro Hp. apply (Steps_consider s e obstacles _ _ p Hp). apply Steps_done.
Qed.

Lemma Steps_keep_atMost (st st' : SearchState) (n : nat) :
  Steps' st st' -> atMost st n -> atMost st' n.
Proof.
  induction 1 as [st | st st' p _ _ IH]; intro H.
  - exact H.
  - apply IH. apply consider_keeps_atMost. exact H.
Qed.

Lemma Steps_keep_Assigned (st st' : SearchState) :
  Steps' st st' -> Assigned' st -> Assigned' st'.
Proof.
  induction 1 as [st | st st' p Hp _ IH]; intro H.
  - exact H.
  - apply IH. apply consider_assigns; auto.
Qed.

(** *** Loops that break on a clear path *)

Lemma forUntilClear_Steps {A : Type} (body : A -> SearchState -> SearchState)
    (items : list A) :
  (forall a st, In a items -> Steps' st (body a st)) ->
  forall st, Steps' st (forUntilClear body items st).
Proof.
  induction items as [|a rest IH]; intros Hbody st; cbn [forUntilClear].
  - apply Steps_done.
  - destruct (isZero (minObstructions (body a st))).
    + apply Hbody. left; reflexivity.
    + apply (Steps_trans _ (body a st)).
      * apply Hbody. left; reflexivity.
      * apply IH. intros a' st' Hin. apply Hbody. right; exact Hin.
Qed.

Lemma forUntilClear_head_Steps {A : Type} (body : A -> SearchState -> SearchState)
    (a : A) (rest : list A) (st : SearchState) :
  (forall a' st', In a' rest -> Steps' st' (body a' st')) ->
  Steps' (body a st) (forUntilClear body (a :: rest) st).
Proof.
  intro Hbody. cbn [forUntilClear].
  destruct (isZero (minObstructions (body a st))).
  - apply Steps_done.
  - apply forUntilClear_Steps. exact Hbody.
Qed.

Lemma forUntilClear_atMost {A : Type} (body : A -> SearchState -> SearchState)
    (cands : A -> Path -> Prop) (items : list A) :
  (forall a st, In a items -> Steps' st (body a st)) ->
  (forall a st c, In a items -> cands a c -> atMost (body a st) (count c)) ->
  forall st a c, In a items -> cands a c ->
    atMost (forUntilClear body items st) (count c).
Proof.
  induction items as [|a0 rest IH]; intros Hsteps Hbody st a c Hin Hc.
  - destruct Hin.
  - cbn [forUntilClear].
    destruct (isZero (minObstructions (body a0 st))) eqn:Hz.
    + apply isZero_atMost. exact Hz.
    + destruct Hin as [<- | Hin].
      * apply (Steps_keep_atMost (body a0 st)).
        -- apply forUntilClear_Steps.
           intros a' st' Hin'. apply Hsteps. right; exact Hin'.
        -- apply Hbody; [left; reflexivity | exact Hc].
      * apply (fun H1 H2 => IH H1 H2 (body a0 st) a c Hin Hc).
        -- intros a' st' Hin'. apply Hsteps. right; exact Hin'.
        -- intros a' st' c' Hin' Hc'.
           apply Hbody; [right; exact Hin' | exact Hc'].
Qed.

(** *** The single-bend search *)

Lemma path1_isCandidate (dx dy : Q) :
  In dx offsets -> In dy offsets -> isCandidate s e (path1 s e dx dy).
Proof. intros Hx Hy. left. exists dx, dy. auto. Qed.

Lemma path2_isCandidate (dx dy : Q) :
  In dx offsets -> In dy offsets -> isCandidate s e (path2 s e dx dy).
Proof. intros Hx Hy. left. exists dx, dy. auto. Qed.

Lemma candidatePath_isCandidate (dx1 dy1 dx2 dy2 : Q) :
  In dx1 offsets -> In dy1 offsets -> In dx2 offsets -> In dy2 offsets ->
  isCandidate s e (candidatePath s e dx1 dy1 dx2 dy2).
Proof. intros H1 H2 H3 H4. right. exists dx1, dy1, dx2, dy2. auto 6. Qed.

(** One turn of the inner loop that is not skipped ranks [path1] first;
    whatever follows is further ranking. *)
Lemma singleBendInner_evaluated (b : bool) (dx dy : Q) (rest : list Q) (st : SearchState) :
  In dx offsets -> In dy offsets -> incl rest offsets ->
  (forall st', Steps' st' (singleBendInner s e obstacles b dx rest st')) ->
  skipped dx dy b = false ->
  Steps' (consider obstacles (path1 s e dx dy) st)
         (singleBendInner s e obstacles b dx (dy :: rest) st).
Proof.
  intros Hdx Hdy Hrest IH Hskip. cbn [singleBendInner].
  unfold skipped in Hskip. rewrite Hskip.
  destruct (Nat.eqb (count (path1 s e dx dy)) 0); [apply Steps_done|].
  destruct (Nat.eqb (count (path2 s e dx dy)) 0).
  - apply Steps_one. apply path2_isCandidate; assumption.
  - apply (Steps_trans _ (consider obstacles (path2 s e dx dy)
                            (consider obstacles (path1 s e dx dy) st))).
    + apply Steps_one. apply path2_isCandidate; assumption.
    + apply IH.
Qed.

Lemma singleBendInner_Steps (b : bool) (dx : Q) (dys : list Q) :
  In dx offsets -> incl dys offsets ->
  forall st, Steps' st (singleBendInner s e obstacles b dx dys st).
Proof.
  intros Hdx. induction dys as [|dy rest IH]; intros Hincl st.
  - apply Steps_done.
  - assert (Hdy : In dy offsets) by (apply Hincl; left; reflexivity).
    assert (Hrest : incl rest offsets)
      by (intros q Hq; apply Hincl; right; exact Hq).
    destruct (skipped dx dy b) eqn:Hskip.
    + cbn [singleBendInner]. unfold skipped in Hskip. rewrite Hskip.
      apply IH. exact Hrest.
    + apply (Steps_trans _ (consider obstacles (path1 s e dx dy) st)).
      * apply Steps_one. apply path1_isCandidate; assumption.
      * apply singleBendInner_evaluated; auto.
Qed.

(** After the inner loop, [minObstructions] is at most the count of
    either path of every offset it did not skip. *)
Lemma singleBendInner_atMost (b : bool) (dx : Q) (dys : list Q) :
  In dx offsets -> incl dys offsets ->
  forall st dy, In dy dys -> skipped dx dy b = false ->
    atMost (singleBendInner s e obstacles b dx dys st) (count (path1 s e dx dy)) /\
    atMost (singleBendInner s e obstacles b dx dys st) (count (path2 s e dx dy)).
Proof.
  intros Hdx. induction dys as [|dy0 rest IH]; intros Hincl st dy Hin Hskip.
  - destruct Hin.
  - assert (Hdy0 : In dy0 offsets) by (apply Hincl; left; reflexivity).
    assert (Hrest : incl rest offsets)
      by (intros q Hq; apply Hincl; right; exact Hq).
    cbn [singleBendInner].
    destruct (Qeq_bool dx 0 && Qeq_bool dy0 0 && b) eqn:Hskip0.
    + destruct Hin as [-> | Hin].
      * unfold skipped in Hskip. congruence.
      * apply IH; assumption.
    + set (st1 := consider obstacles (path1 s e dx dy0) st).
      set (st2 := consider obstacles (path2 s e dx dy0) st1).
      destruct (Nat.eqb (count (path1 s e dx dy0)) 0) eqn:Hc1.
      { apply Nat.eqb_eq in Hc1.
        split; apply isZero_atMost; apply consider_clear; exact Hc1. }
      destruct (Nat.eqb (count (path2 s e dx dy0)) 0) eqn:Hc2.
      { apply Nat.eqb_eq in Hc2.
        split; apply isZero_atMost; apply consider_clear; exact Hc2. }
      destruct Hin as [<- | Hin].
      * split.
        -- apply (Steps_keep_atMost st2); [apply singleBendInner_Steps; auto|].
           apply consider_keeps_atMost. apply consider_atMost.
        -- apply (Steps_keep_atMost st2); [apply singleBendInner_Steps; auto|].
           apply consider_atMost.
      * apply IH; assumption.
Qed.

(** From a search that has no path yet, the inner loop assigns one as
    soon as one of its offsets is not skipped. *)
Lemma singleBendInner_assigns (b : bool) (dx : Q) (dys : list Q) :
  In dx offsets -> incl dys offsets ->
  (exists dy, In dy dys /\ skipped dx dy b = false) ->
  forall st, Assigned' st \/ minObstructions st = Infinity ->
    Assigned' (singleBendInner s e obstacles b dx dys st).
Proof.
  intros Hdx. induction dys as [|dy0 rest IH]; intros Hincl [dy [Hin Hskip]] st Hst.
  - destruct Hin.
  - assert (Hdy0 : In dy0 offsets) by (apply Hincl; left; reflexivity).
    assert (Hrest : incl rest offsets)
      by (intros q Hq; apply Hincl; right; exact Hq).
    destruct (skipped dx dy0 b) eqn:Hskip0.
    + cbn [singleBendInner]. unfold skipped in Hskip0. rewrite Hskip0.
      apply IH; auto.
      destruct Hin as [-> | Hin].
      * unfold skipped in Hskip. congruence.
      * exists dy. auto.
    + apply (Steps_keep_Assigned (consider obstacles (path1 s e dx dy0) st)).
      * apply singleBendInner_evaluated; auto.
        intro st'. apply singleBendInner_Steps; auto.
      * apply consider_assigns; [apply path1_isCandidate; assumption | exact Hst].
Qed.

Lemma singleBend_Steps (b : bool) (st : SearchState) :
  Steps' st (singleBend s e obstacles b st).
Proof.
  unfold singleBend. apply forUntilClear_Steps.
  intros dx st' Hdx. apply singleBendInner_Steps; [exact Hdx | apply incl_refl].
Qed.

Lemma singleBend_atMost (b : bool) (st : SearchState) (dx dy : Q) :
  In dx offsets -> In dy offsets -> skipped dx dy b = false ->
  atMost (singleBend s e obstacles b st) (count (path1 s e dx dy)) /\
  atMost (singleBend s e obstacles b st) (count (path2 s e dx dy)).
Proof.
  intros Hdx Hdy Hskip. unfold singleBend.
  pose (cands := fun (a : Q) (c : Path) =>
    exists dy', In dy' offsets /\ skipped a dy' b = false /\
                (c = path1 s e a dy' \/ c = path2 s e a dy')).
  assert (H : forall c, cands dx c ->
            atMost (forUntilClear (fun dx0 => singleBendInner s e obstacles b dx0 offsets)
                      offsets st) (count c)).
  { intros c Hc.
    apply (forUntilClear_atMost _ cands offsets) with (a := dx); auto.
    - intros a st' Ha. apply singleBendInner_Steps; [exact Ha | apply incl_refl].
    - intros a st' c' Ha [dy' [Hdy' [Hskip' Hc']]].
      destruct (singleBendInner_atMost b a offsets Ha (incl_refl _) st' dy' Hdy' Hskip')
        as [H1 H2].
      destruct Hc' as [-> | ->]; assumption. }
  split; apply H; exists dy; auto.
Qed.

(** With the direct path obstructed, the first offset pair the search
    does not skip already assigns [bestPath]. *)
Lemma singleBend_assigns :
  Assigned' (singleBend s e obstacles true initialSearch).
Proof.
  unfold singleBend.
  apply (Steps_keep_Assigned
           (singleBendInner s e obstacles true 0 offsets initialSearch)).
  - apply (forUntilClear_head_Steps
             (fun dx => singleBendInner s e obstacles true dx offsets)
             0 (tl offsets) initialSearch).
    intros a st' Ha. apply singleBendInner_Steps; [|apply incl_refl].
    right; exact Ha.
  - apply singleBendInner_assigns.
    + left; reflexivity.
    + apply incl_refl.
    + exists 20. split; [right; left; reflexivity | reflexivity].
    + right; reflexivity.
Qed.

(** *** The double-bend search *)

Lemma loopDy2_Steps (dx1 dy1 dx2 : Q) (st : SearchState) :
  In dx1 offsets -> In dy1 offsets -> In dx2 offsets ->
  Steps' st (loopDy2 s e obstacles dx1 dy1 dx2 st).
Proof.
  intros H1 H2 H3. unfold loopDy2. apply forUntilClear_Steps.
  intros dy2 st' H4. apply Steps_one. apply candidatePath_isCandidate; assumption.
Qed.

Lemma loopDx2_Steps (dx1 dy1 : Q) (st : SearchState) :
  In dx1 offsets -> In dy1 offsets ->
  Steps' st (loopDx2 s e obstacles dx1 dy1 st).
Proof.
  intros H1 H2. unfold loopDx2. apply forUntilClear_Steps.
  intros dx2 st' H3. apply loopDy2_Steps; assumption.
Qed.

Lemma loopDy1_Steps (dx1 : Q) (st : SearchState) :
  In dx1 offsets -> Steps' st (loopDy1 s e obstacles dx1 st).
Proof.
  intros H1. unfold loopDy1. apply forUntilClear_Steps.
  intros dy1 st' H2. apply loopDx2_Steps; assumption.
Qed.

Lemma doubleBendLoops_Steps (st : SearchState) :
  Steps' st (doubleBendLoops s e obstacles st).
Proof.
  unfold doubleBendLoops. apply forUntilClear_Steps.
  intros dx1 st' H1. apply loopDy1_Steps; assumption.
Qed.

Lemma doubleBend_Steps (st : SearchState) :
  Steps' st (doubleBend s e obstacles st).
Proof.
  unfold doubleBend. destruct (isPositive (minObstructions st)).
  - apply doubleBendLoops_Steps.
  - apply Steps_done.
Qed.

Lemma doubleBendLoops_atMost (st : SearchState) (dx1 dy1 dx2 dy2 : Q) :
  In dx1 offsets -> In dy1 offsets -> In dx2 offsets -> In dy2 offsets ->
  atMost (doubleBendLoops s e obstacles st)
         (count (candidatePath s e dx1 dy1 dx2 dy2)).
Proof.
  intros H1 H2 H3 H4. unfold doubleBendLoops.
  apply (forUntilClear_atMost _
           (fun a c => exists b2 a3 b4, In b2 offsets /\ In a3 offsets /\
              In b4 offsets /\ c = candidatePath s e a b2 a3 b4) offsets)
    with (a := dx1); [| | exact H1 | exists dy1, dx2, dy2; auto].
  { intros a st' Ha. apply loopDy1_Steps; assumption. }
  intros a st1 c Ha [b2 [a3 [b4 [Hb2 [Ha3 [Hb4 ->]]]]]]. unfold loopDy1.
  apply (forUntilClear_atMost _
           (fun b c => exists a3' b4', In a3' offsets /\ In b4' offsets /\
              c = candidatePath s e a b a3' b4') offsets)
    with (a := b2); [| | exact Hb2 | exists a3, b4; auto].
  { intros b st' Hb. apply loopDx2_Steps; assumption. }
  intros b st2 c Hb [a3' [b4' [Ha3' [Hb4' ->]]]]. unfold loopDx2.
  apply (forUntilClear_atMost _
           (fun a3'' c => exists b4'', In b4'' offsets /\
              c = candidatePath s e a b a3'' b4'') offsets)
    with (a := a3'); [| | exact Ha3' | exists b4'; auto].
  { intros a3'' st' Ha3''. apply loopDy2_Steps; assumption. }
  intros a3'' st3 c Ha3'' [b4'' [Hb4'' ->]]. unfold loopDy2.
  apply (forUntilClear_atMost _
           (fun b4''' c => c = candidatePath s e a b a3'' b4''') offsets)
    with (a := b4''); [| | exact Hb4'' | reflexivity].
  { intros b4''' st' Hb4'''. apply Steps_one.
    apply candidatePath_isCandidate; assumption. }
  intros b4''' st4 c _ ->. apply consider_atMost.
Qed.

Lemma isPositive_false_isZero (m : Count) :
  isPositive m = false -> isZero m = true.
Proof.
  destruct m as [[|k]|]; cbn; [reflexivity | discriminate | discriminate].
Qed.

(** *** The whole search *)

Lemma search_Assigned : Assigned' (search s e obstacles true).
Proof.
  unfold search.
  apply (Steps_keep_Assigned (singleBend s e obstacles true initialSearch)).
  - apply doubleBend_Steps.
  - apply singleBend_assigns.
Qed.

Lemma search_atMost_singleBend (dx dy : Q) :
  In dx offsets -> In dy offsets -> skipped dx dy true = false ->
  atMost (search s e obstacles true) (count (path1 s e dx dy)) /\
  atMost (search s e obstacles true) (count (path2 s e dx dy)).
Proof.
  intros Hdx Hdy Hskip. unfold search.
  destruct (singleBend_atMost true initialSearch dx dy Hdx Hdy Hskip) as [H1 H2].
  split; eapply Steps_keep_atMost; eauto using doubleBend_Steps.
Qed.

Lemma search_atMost_doubleBend (dx1 dy1 dx2 dy2 : Q) :
  In dx1 offsets -> In dy1 offsets -> In dx2 offsets -> In dy2 offsets ->
  atMost (search s e obstacles true)
         (count (candidatePath s e dx1 dy1 dx2 dy2)).
Proof.
  intros H1 H2 H3 H4. unfold search, doubleBend.
  destruct (isPositive (minObstructions (singleBend s e obstacles true initialSearch)))
    eqn:Hpos.
  - apply doubleBendLoops_atMost; assumption.
  - apply isZero_atMost. apply isPositive_false_isZero. exact Hpos.
Qed.

End SearchFacts.

(** ** [calculatePath] *)

Section CalculatePathFacts.
Import Geometry Router Invariants Spec.

Lemma startCopy_same (s : Point) : startCopy s = s.
Proof. destruct s; reflexivity. Qed.

Lemma endCopy_same (e : Point) : endCopy e = e.
Proof. destruct e; reflexivity. Qed.

Lemma potentialPath_same (s e : Point) : potentialPath s e = [s; e].
Proof. unfold potentialPath. rewrite startCopy_same, endCopy_same. reflexivity. Qed.

Lemma isCandidate_shape (s e : Point) (p : Path) :
  isCandidate s e p ->
  (exists b, p = [s; b; e]) \/ (exists b1 b2, p = [s; b1; b2; e]).
Proof.
  intros [[dx [dy [_ [_ [-> | ->]]]]] | [dx1 [dy1 [dx2 [dy2 [_ [_ [_ [_ ->]]]]]]]]];
    unfold path1, path2, candidatePath; rewrite startCopy_same, endCopy_same;
    eauto.
Qed.

(** With both anchors known, the router either returns the direct path
    (nothing in the way) or the path the search has assigned. *)
Lemma calculatePath_cases (edge : EdgeModel) (sourceNode targetNode : NodeModel)
    (allNodes : list NodeModel) (s e : Point) :
  resolveStart edge sourceNode = Some s ->
  resolveEnd edge targetNode = Some e ->
  let obstacles := obstaclesOf sourceNode targetNode allNodes in
  (anyObstacleIntersects [s; e] obstacles = false /\
   calculatePath edge sourceNode targetNode allNodes = Some [s; e]) \/
  (anyObstacleIntersects [s; e] obstacles = true /\
   exists best,
     bestPath (search s e obstacles true) = Some best /\
     minObstructions (search s e obstacles true) =
       Finite (checkAndCountObstructions obstacles best) /\
     isCandidate s e best /\
     calculatePath edge sourceNode targetNode allNodes = Some best).
Proof.
  intros Hs He obstacles. unfold calculatePath. rewrite Hs, He. cbv zeta.
  fold obstacles. rewrite potentialPath_same.
  destruct (anyObstacleIntersects [s; e] obstacles) eqn:Hobs; cbn [negb].
  - right. split; [reflexivity|].
    destruct (search_Assigned s e obstacles) as [best [Hbest [Hmin Hcand]]].
    exists best. rewrite Hbest. auto.
  - left. auto.
Qed.

(** C1. With both anchors known, the returned path begins with the
    start anchor and ends with the end anchor. *)
Theorem calculatePath_preserves_anchors
    (edge : EdgeModel) (sourceNode targetNode : NodeModel)
    (allNodes : list NodeModel) (s e : Point)
    (Hstart : resolveStart edge sourceNode = Some s)
    (Hend : resolveEnd edge targetNode = Some e) :
  exists bends,
    calculatePath edge sourceNode targetNode allNodes = Some (s :: bends ++ [e]).
Proof.
  destruct (calculatePath_cases edge sourceNode targetNode allNodes s e Hstart Hend)
    as [[_ Hdirect] | [_ [best [_ [_ [Hcand Hbest]]]]]].
  - exists []. exact Hdirect.
  - destruct (isCandidate_shape s e best Hcand) as [[b ->] | [b1 [b2 ->]]].
    + exists [b]. exact Hbest.
    + exists [b1; b2]. exact Hbest.
Qed.

Lemma calculatePath_preserves_anchors_witness :
  exists bends,
    calculatePath (Examples.edgeBetween (mkPoint 0 0) (mkPoint 200 0))
      Examples.sourceNode Examples.targetNode Examples.blockedNodes
    = Some (mkPoint 0 0 :: bends ++ [mkPoint 200 0]).
Proof.
  apply calculatePath_preserves_anchors; reflexivity.
Defined.

(** C9. With both anchors known and the direct path obstructed, the
    first candidate ranked, [path1] at offsets (0, 20), is below the
    initial [Infinity] and is assigned; the search ends with a
    [bestPath], which is what the router returns: a lattice candidate of
    three or four points.  The final fallback is never taken. *)
Theorem search_always_assigns
    (edge : EdgeModel) (sourceNode targetNode : NodeModel)
    (allNodes : list NodeModel) (s e : Point)
    (Hstart : resolveStart edge sourceNode = Some s)
    (Hend : resolveEnd edge targetNode = Some e)
    (Hobstructed :
       anyObstacleIntersects (potentialPath s e)
         (obstaclesOf sourceNode targetNode allNodes) = true) :
  let obstacles := obstaclesOf sourceNode targetNode allNodes in
  let first := path1 s e 0 20 in
  singleBendInner s e obstacles true 0 offsets initialSearch =
    singleBendInner s e obstacles true 0 (tl offsets) initialSearch /\
  consider obstacles first initialSearch =
    mkSearch (Some first) (Finite (checkAndCountObstructions obstacles first)) /\
  Steps s e obstacles (consider obstacles first initialSearch)
    (search s e obstacles true) /\
  exists best,
    bestPath (search s e obstacles true) = Some best /\
    calculatePath edge sourceNode targetNode allNodes = Some best /\
    isCandidate s e best /\
    (List.length best = 3%nat \/ List.length best = 4%nat).
Proof.
  intros obstacles first. rewrite potentialPath_same in Hobstructed.
  split; [reflexivity|]. split; [reflexivity|]. split.
  - unfold search.
    apply (Steps_trans s e obstacles _ (singleBend s e obstacles true initialSearch));
      [|apply doubleBend_Steps].
    unfold singleBend.
    apply (Steps_trans s e obstacles _
             (singleBendInner s e obstacles true 0 offsets initialSearch)).
    + change (singleBendInner s e obstacles true 0 offsets initialSearch)
        with (singleBendInner s e obstacles true 0 (tl offsets) initialSearch).
      apply singleBendInner_evaluated.
      * left; reflexivity.
      * right; left; reflexivity.
      * intros q Hq. right. right. exact Hq.
      * intro st'. apply singleBendInner_Steps; [left; reflexivity|].
        intros q Hq. right. right. exact Hq.
      * reflexivity.
    + apply (forUntilClear_head_Steps s e obstacles
               (fun dx => singleBendInner s e obstacles true dx offsets)
               0 (tl offsets) initialSearch).
      intros a st' Ha. apply singleBendInner_Steps; [|apply incl_refl].
      right; exact Ha.
  - destruct (calculatePath_cases edge sourceNode targetNode allNodes s e Hstart Hend)
      as [[Hclear _] | [_ [best [Hbest [_ [Hcand Hresult]]]]]].
    + fold obstacles in Hobstructed. unfold obstacles in Hobstructed. congruence.
    + exists best. repeat split; auto.
      destruct (isCandidate_shape s e best Hcand) as [[b ->] | [b1 [b2 ->]]];
        [left | right]; reflexivity.
Qed.

Lemma search_always_assigns_witness :
  exists best,
    calculatePath (Examples.edgeBetween (mkPoint 0 0) (mkPoint 200 0))
      Examples.sourceNode Examples.targetNode Examples.blockedNodes = Some best /\
    (List.length best = 3%nat \/ List.length best = 4%nat).
Proof.
  destruct (search_always_assigns
              (Examples.edgeBetween (mkPoint 0 0) (mkPoint 200 0))
              Examples.sourceNode Examples.targetNode Examples.blockedNodes
              (mkPoint 0 0) (mkPoint 200 0) eq_refl eq_refl eq_refl)
    as [_ [_ [_ [best [_ [Hresult [_ Hlen]]]]]]].
  exists best. split; assumption.
Defined.

Lemma isPathIntersectingNode_direct (s e : Point) (o : NodeModel) :
  isPathIntersectingNode [s; e] o = isLineIntersectingRect s e (getBBox o).
Proof.
  unfold isPathIntersectingNode. cbn [isPathIntersectingRect].
  destruct (isLineIntersectingRect s e (getBBox o)); reflexivity.
Qed.

Lemma calculatePath_direct_when_clear
    (edge : EdgeModel) (sourceNode targetNode : NodeModel)
    (allNodes : list NodeModel) (s e : Point) :
  resolveStart edge sourceNode = Some s ->
  resolveEnd edge targetNode = Some e ->
  (forall node, In node (obstaclesOf sourceNode targetNode allNodes) ->
     isLineIntersectingRect s e (getBBox node) = false) ->
  calculatePath edge sourceNode targetNode allNodes = Some [s; e].
Proof.
  intros Hstart Hend Hclear.
  destruct (calculatePath_cases edge sourceNode targetNode allNodes s e Hstart Hend)
    as [[_ Hdirect] | [Hobs _]]; [exact Hdirect|].
  assert (Hfalse : anyObstacleIntersects [s; e]
                     (obstaclesOf sourceNode targetNode allNodes) = false).
  { apply anyObstacleIntersects_false. intros o Ho.
    rewrite isPathIntersectingNode_direct. apply Hclear. exact Ho. }
  congruence.
Qed.

(** C5. When no obstacle's rectangle intersects the segment from start
    to end, and so whenever there is no obstacle at all, the router
    returns the two-point path [start; end]. *)
Theorem calculatePath_clear_is_direct
    (edge : EdgeModel) (sourceNode targetNode : NodeModel)
    (allNodes : list NodeModel) (s e : Point)
    (Hstart : resolveStart edge sourceNode = Some s)
    (Hend : resolveEnd edge targetNode = Some e) :
  let obstacles := obstaclesOf sourceNode targetNode allNodes in
  ((forall node, In node obstacles ->
      isLineIntersectingRect s e (getBBox node) = false) ->
   calculatePath edge sourceNode targetNode allNodes = Some [s; e]) /\
  (obstacles = [] ->
   calculatePath edge sourceNode targetNode allNodes = Some [s; e]).
Proof.
  intro obstacles. split.
  - apply calculatePath_direct_when_clear; assumption.
  - intro Hempty. apply calculatePath_direct_when_clear; try assumption.
    fold obstacles. rewrite Hempty. intros node [].
Qed.

Lemma calculatePath_clear_is_direct_witness :
  calculatePath (Examples.edgeBetween (mkPoint 0 0) (mkPoint 200 0))
    Examples.sourceNode Examples.targetNode Examples.besideNodes
  = Some [mkPoint 0 0; mkPoint 200 0].
Proof.
  apply (proj1 (calculatePath_clear_is_direct
           (Examples.edgeBetween (mkPoint 0 0) (mkPoint 200 0))
           Examples.sourceNode Examples.targetNode Examples.besideNodes
           (mkPoint 0 0) (mkPoint 200 0) eq_refl eq_refl)).
  intros node [<- | []]. reflexivity.
Defined.

(** C6. When the start or the end point cannot be determined, the
    router returns the edge's [pointsList] as it is. *)
Theorem calculatePath_missing_anchor
    (edge : EdgeModel) (sourceNode targetNode : NodeModel)
    (allNodes : list NodeModel)
    (Hmissing : resolveStart edge sourceNode = None \/
                resolveEnd edge targetNode = None) :
  calculatePath edge sourceNode targetNode allNodes = pointsList edge.
Proof.
  unfold calculatePath.
  destruct Hmissing as [H | H]; rewrite H.
  - reflexivity.
  - destruct (resolveStart edge sourceNode); reflexivity.
Qed.

Lemma calculatePath_missing_anchor_witness :
  calculatePath Examples.looseEdge Examples.sourceNode Examples.targetNode
    Examples.blockedNodes
  = Some [mkPoint 1 2; mkPoint 3 4; mkPoint 5 6].
Proof.
  apply (calculatePath_missing_anchor Examples.looseEdge Examples.sourceNode
           Examples.targetNode Examples.blockedNodes).
  left. reflexivity.
Defined.

(** C8. A segment of length zero intersects a rectangle exactly when
    its point is within the rectangle's inclusive bounds; and routing
    between coincident anchors, with no obstacle over that point, returns
    the two-point path that repeats it. *)
Theorem zero_length_segment_is_point_test :
  (forall (p1 p2 : Point) (rect : Rect),
     x p1 == x p2 -> y p1 == y p2 ->
     (isLineIntersectingRect p1 p2 rect = true <-> withinBounds p1 rect)) /\
  (forall (edge : EdgeModel) (sourceNode targetNode : NodeModel)
          (allNodes : list NodeModel) (p : Point),
     resolveStart edge sourceNode = Some p ->
     resolveEnd edge targetNode = Some p ->
     (forall node, In node (obstaclesOf sourceNode targetNode allNodes) ->
        ~ withinBounds p (getBBox node)) ->
     calculatePath edge sourceNode targetNode allNodes = Some [p; p]).
Proof.
  split.
  - intros p1 p2 rect Hx Hy.
    rewrite (isLineIntersectingRect_zero_length p1 p2 rect Hx Hy).
    apply pointInRect_spec.
  - intros edge sourceNode targetNode allNodes p Hs He Hout.
    apply (calculatePath_direct_when_clear edge sourceNode targetNode
             allNodes p p Hs He).
    intros node Hin.
    rewrite (isLineIntersectingRect_zero_length p p (getBBox node));
      try reflexivity.
    destruct (pointInRect p (getBBox node)) eqn:Hp; [|reflexivity].
    apply pointInRect_spec in Hp. destruct (Hout node Hin Hp).
Qed.

Lemma zero_length_segment_is_point_test_witness :
  (isLineIntersectingRect (mkPoint 0 0) (mkPoint 0 0) (mkRect 0 0 4 4) = true <->
   withinBounds (mkPoint 0 0) (mkRect 0 0 4 4)) /\
  calculatePath (Examples.edgeBetween (mkPoint 0 0) (mkPoint 0 0))
    Examples.sourceNode Examples.targetNode Examples.besideNodes
  = Some [mkPoint 0 0; mkPoint 0 0].
Proof.
  split.
  - apply (proj1 zero_length_segment_is_point_test); reflexivity.
  - apply (proj2 zero_length_segment_is_point_test
             (Examples.edgeBetween (mkPoint 0 0) (mkPoint 0 0))
             Examples.sourceNode Examples.targetNode Examples.besideNodes
             (mkPoint 0 0) eq_refl eq_refl).
    intros node [<- | []] [_ [_ [H _]]]. revert H. cbn. unfold Qle. cbn. lia.
Defined.

(** *** The count the selector ranks by *)

Lemma sumOver_cons {A : Type} (f : A -> nat) (a : A) (l : list A) :
  sumOver f (a :: l) = (f a + sumOver f l)%nat.
Proof. reflexivity. Qed.

Lemma pathObstructionCount_cons (points : Path) (rect : Rect) (rects : list Rect) :
  pathObstructionCount points (rect :: rects) =
  (sumOver (fun seg => hits seg rect) (consecutivePairs points) +
   pathObstructionCount points rects)%nat.
Proof.
  unfold pathObstructionCount.
  induction (consecutivePairs points) as [|seg segs IH]; [reflexivity|].
  rewrite !sumOver_cons. cbn beta. rewrite IH. lia.
Qed.

Lemma meetsPath_at_most_hits (points : Path) (rect : Rect) :
  ((if meetsPath points rect then 1 else 0) <=
   sumOver (fun seg => hits seg rect) (consecutivePairs points))%nat.
Proof.
  unfold meetsPath.
  induction (consecutivePairs points) as [|seg segs IH]; [cbn; lia|].
  rewrite sumOver_cons. cbn [existsb]. unfold hits at 1.
  destruct (isLineIntersectingRect (fst seg) (snd seg) rect); cbn [orb]; [|exact IH].
  destruct (existsb _ segs); lia.
Qed.

(** C3, as the selector computes it.  The count is the number of
    obstacles whose rectangle is intersected by at least one consecutive
    point pair of the path: every obstacle counts once, however many
    segments cross it.  It never exceeds the sum over (segment, obstacle)
    pairs, and is equal to it on a path of a single segment. *)
Theorem checkAndCountObstructions_counts_obstacles
    (obstacles : list NodeModel) (p : Path) :
  checkAndCountObstructions obstacles p =
    List.length (filter (fun o => meetsPath p (getBBox o)) obstacles) /\
  (checkAndCountObstructions obstacles p <=
     pathObstructionCount p (map getBBox obstacles))%nat /\
  (forall a b, p = [a; b] ->
     checkAndCountObstructions obstacles p =
       pathObstructionCount p (map getBBox obstacles)).
Proof.
  split; [|split].
  - induction obstacles as [|o rest IH]; [reflexivity|].
    rewrite checkAndCountObstructions_cons. cbn [filter].
    unfold isPathIntersectingNode. rewrite isPathIntersectingRect_meetsPath.
    destruct (meetsPath p (getBBox o)); cbn [List.length]; lia.
  - induction obstacles as [|o rest IH].
    + cbn. lia.
    + rewrite checkAndCountObstructions_cons. cbn [map].
      rewrite pathObstructionCount_cons.
      unfold isPathIntersectingNode. rewrite isPathIntersectingRect_meetsPath.
      pose proof (meetsPath_at_most_hits p (getBBox o)). lia.
  - intros a b ->. induction obstacles as [|o rest IH]; [reflexivity|].
    rewrite checkAndCountObstructions_cons. cbn [map].
    rewrite pathObstructionCount_cons, IH, isPathIntersectingNode_direct.
    cbn. unfold hits. cbn [fst snd].
    destruct (isLineIntersectingRect a b (getBBox o)); lia.
Qed.

(** C3, as the specification states it, fails: the bend of this
    candidate lies on the obstacle's boundary, both of its segments meet
    the obstacle, and the selector counts the obstacle once. *)
Lemma obstruction_count_pairs_counterexample :
  checkAndCountObstructions
    (obstaclesOf Examples.sourceNode Examples.targetNode Examples.blockedNodes)
    (path1 (mkPoint 0 0) (mkPoint 200 0) 0 20) = 1%nat /\
  pathObstructionCount
    (path1 (mkPoint 0 0) (mkPoint 200 0) 0 20)
    (map getBBox
       (obstaclesOf Examples.sourceNode Examples.targetNode Examples.blockedNodes))
    = 2%nat.
Proof. split; vm_compute; reflexivity. Qed.

(** *** Repeated points *)

Lemma filterAfter_noConsecutiveDuplicates (kept previous : Point) (points : list Point) :
  x kept == x previous -> y kept == y previous ->
  noConsecutiveDuplicates (kept :: Extension.filterAfter previous points).
Proof.
  revert kept previous.
  induction points as [|point rest IH]; intros kept previous Hx Hy.
  - exact I.
  - cbn [Extension.filterAfter].
    destruct (Extension.samePoint point previous) eqn:Hsame; cbn [negb].
    + unfold Extension.samePoint in Hsame.
      apply andb_true_iff in Hsame. destruct Hsame as [Hsx Hsy].
      apply Qeq_bool_iff in Hsx. apply Qeq_bool_iff in Hsy.
      apply IH.
      * rewrite Hx, Hsx. reflexivity.
      * rewrite Hy, Hsy. reflexivity.
    + split.
      * intros [Hkx Hky].
        assert (Htrue : Extension.samePoint point previous = true).
        { unfold Extension.samePoint. apply andb_true_iff.
          rewrite !Qeq_bool_iff. rewrite <- Hkx, <- Hky. auto. }
        congruence.
      * apply IH; reflexivity.
Qed.

(** The sibling router's last step leaves no two equal neighbours. *)
Lemma filterConsecutiveDuplicates_noConsecutiveDuplicates (points : list Point) :
  noConsecutiveDuplicates (Extension.filterConsecutiveDuplicates points).
Proof.
  destruct points as [|first rest]; [exact I|].
  apply filterAfter_noConsecutiveDuplicates; reflexivity.
Qed.

(** C4 on [calculatePath].  For a vertical edge from (0,0) to (0,20)
    whose start anchor lies under another node, every candidate meets that
    node, the first candidate ranked is kept, and its bend is the end
    anchor: the returned path repeats a point.  [calculatePath] has no
    step like the sibling's filter. *)
Theorem calculatePath_repeats_a_point :
  calculatePath (Examples.edgeBetween (mkPoint 0 0) (mkPoint 0 20))
    Examples.sourceNode Examples.targetNode Examples.coveringNodes
  = Some (path1 (mkPoint 0 0) (mkPoint 0 20) 0 20) /\
  path1 (mkPoint 0 0) (mkPoint 0 20) 0 20 =
    [mkPoint 0 0; mkPoint ((0 + 0) / 2 + 0) (0 + 20); mkPoint 0 20] /\
  ~ noConsecutiveDuplicates (path1 (mkPoint 0 0) (mkPoint 0 20) 0 20) /\
  noConsecutiveDuplicates
    (Extension.filterConsecutiveDuplicates (path1 (mkPoint 0 0) (mkPoint 0 20) 0 20)).
Proof.
  split; [vm_compute; reflexivity|]. split; [reflexivity|]. split.
  - intros [_ [H _]]. apply H. split; reflexivity.
  - apply filterConsecutiveDuplicates_noConsecutiveDuplicates.
Qed.

(** *** The tests do not tell apart points at the same place *)

Lemma pointInRect_samePlace (p q : Point) (rect : Rect) :
  samePlace p q -> pointInRect p rect = pointInRect q rect.
Proof.
  intros [Hx Hy]. unfold pointInRect. rewrite Hx, Hy. reflexivity.
Qed.

Lemma orientation_samePlace (p q r p' q' r' : Point) :
  samePlace p p' -> samePlace q q' -> samePlace r r' ->
  orientation p q r = orientation p' q' r'.
Proof.
  intros [Hpx Hpy] [Hqx Hqy] [Hrx Hry]. unfold orientation, Qgt_bool.
  assert (Hval : (y q - y p) * (x r - x q) - (x q - x p) * (y r - y q) ==
                 (y q' - y p') * (x r' - x q') - (x q' - x p') * (y r' - y q'))
    by (rewrite Hpx, Hpy, Hqx, Hqy, Hrx, Hry; reflexivity).
  rewrite (Qeqb_comp _ _ Hval 0 0 (Qeq_refl 0)).
  rewrite (Qleb_comp _ _ Hval 0 0 (Qeq_refl 0)).
  reflexivity.
Qed.

Lemma onSegment_samePlace (p q r p' q' r' : Point) :
  samePlace p p' -> samePlace q q' -> samePlace r r' ->
  onSegment p q r = onSegment p' q' r'.
Proof.
  intros [Hpx Hpy] [Hqx Hqy] [Hrx Hry]. unfold onSegment.
  rewrite Hpx, Hpy, Hqx, Hqy, Hrx, Hry. reflexivity.
Qed.

Lemma doLineSegmentsIntersect_samePlace (p1 p2 p3 p4 q1 q2 : Point) :
  samePlace p1 q1 -> samePlace p2 q2 ->
  doLineSegmentsIntersect p1 p2 p3 p4 = doLineSegmentsIntersect q1 q2 p3 p4.
Proof.
  intros H1 H2. unfold doLineSegmentsIntersect.
  assert (H3 : samePlace p3 p3) by (split; reflexivity).
  assert (H4 : samePlace p4 p4) by (split; reflexivity).
  rewrite (orientation_samePlace p1 p2 p3 q1 q2 p3 H1 H2 H3).
  rewrite (orientation_samePlace p1 p2 p4 q1 q2 p4 H1 H2 H4).
  rewrite (orientation_samePlace p3 p4 p1 p3 p4 q1 H3 H4 H1).
  rewrite (orientation_samePlace p3 p4 p2 p3 p4 q2 H3 H4 H2).
  rewrite (onSegment_samePlace p1 p3 p2 q1 p3 q2 H1 H3 H2).
  rewrite (onSegment_samePlace p1 p4 p2 q1 p4 q2 H1 H4 H2).
  rewrite (onSegment_samePlace p3 p1 p4 p3 q1 p4 H3 H1 H4).
  rewrite (onSegment_samePlace p3 p2 p4 p3 q2 p4 H3 H2 H4).
  reflexivity.
Qed.

Lemma isLineIntersectingRect_samePlace (p1 p2 q1 q2 : Point) (rect : Rect) :
  samePlace p1 q1 -> samePlace p2 q2 ->
  isLineIntersectingRect p1 p2 rect = isLineIntersectingRect q1 q2 rect.
Proof.
  intros H1 H2. unfold isLineIntersectingRect.
  rewrite (pointInRect_samePlace p1 q1 rect H1).
  rewrite (pointInRect_samePlace p2 q2 rect H2).
  destruct H1 as [H1x H1y]. destruct H2 as [H2x H2y].
  rewrite H1x, H1y, H2x, H2y.
  assert (Hsides : forall segs,
            anySideIntersects p1 p2 segs = anySideIntersects q1 q2 segs).
  { induction segs as [|seg rest IH]; [reflexivity|].
    cbn [anySideIntersects].
    rewrite (doLineSegmentsIntersect_samePlace p1 p2 _ _ q1 q2), IH;
      [reflexivity | split; assumption | split; assumption]. }
  rewrite Hsides. reflexivity.
Qed.

(** *** Ranking against the direct path *)

(** On a horizontal edge the double-bend candidate of all-zero offsets
    runs along the direct path. *)
Lemma zero_offsets_candidate_horizontal (s e : Point) (rect : Rect) :
  y s == y e ->
  isPathIntersectingRect (candidatePath s e 0 0 0 0) rect =
  isLineIntersectingRect s e rect.
Proof.
  intro Hy. unfold candidatePath.
  set (b1 := mkPoint (x s + 0) (midY s e + 0)).
  set (b2 := mkPoint (x e + 0) (midY s e + 0)).
  assert (Hmid_s : midY s e + 0 == y s) by (unfold midY; rewrite Hy; field).
  assert (Hmid_e : midY s e + 0 == y e) by (unfold midY; rewrite Hy; field).
  assert (H1 : samePlace b1 s) by (split; cbn; [ring | exact Hmid_s]).
  assert (H2 : samePlace b2 e) by (split; cbn; [ring | exact Hmid_e]).
  cbn [isPathIntersectingRect].
  rewrite (isLineIntersectingRect_zero_length (startCopy s) b1 rect);
    [| cbn; ring | cbn; rewrite Hmid_s; reflexivity].
  rewrite (isLineIntersectingRect_zero_length b2 (endCopy e) rect);
    [| cbn; ring | cbn; exact Hmid_e].
  rewrite (isLineIntersectingRect_samePlace b1 b2 s e rect H1 H2).
  rewrite (pointInRect_samePlace b2 e rect H2).
  rewrite startCopy_same.
  destruct (pointInRect s rect) eqn:Hs.
  - symmetry. apply isLineIntersectingRect_endpoint. left; exact Hs.
  - destruct (isLineIntersectingRect s e rect) eqn:Hse; [reflexivity|].
    destruct (pointInRect e rect) eqn:He; [|reflexivity].
    rewrite <- Hse. symmetry.
    apply isLineIntersectingRect_endpoint. right; exact He.
Qed.

Lemma zero_offsets_candidate_count (obstacles : list NodeModel) (s e : Point) :
  y s == y e ->
  checkAndCountObstructions obstacles (candidatePath s e 0 0 0 0) =
  checkAndCountObstructions obstacles [s; e].
Proof.
  intro Hy. induction obstacles as [|o rest IH]; [reflexivity|].
  rewrite !checkAndCountObstructions_cons, IH, isPathIntersectingNode_direct.
  unfold isPathIntersectingNode.
  rewrite (zero_offsets_candidate_horizontal s e (getBBox o) Hy). reflexivity.
Qed.

Lemma atMost_best (obstacles : list NodeModel) (st : SearchState) (best : Path) (n : nat) :
  minObstructions st = Finite (checkAndCountObstructions obstacles best) ->
  atMost st n -> (checkAndCountObstructions obstacles best <= n)%nat.
Proof.
  intros Hmin [k [Hk Hle]]. rewrite Hmin in Hk. injection Hk as <-. exact Hle.
Qed.

(** C2, as the router ranks.  With both anchors known the router
    returns a path whose count (obstacles met, as the selector counts
    them) is: zero, the path being the direct one, when the direct path is
    clear; otherwise at most the count of every candidate of the two bend
    lattices other than the skipped (0, 0) single bend.  The direct path
    is not one of the candidates: the result is bounded by the direct
    path's count on a horizontal edge, where a candidate runs along it. *)
Theorem calculatePath_ranked_result
    (edge : EdgeModel) (sourceNode targetNode : NodeModel)
    (allNodes : list NodeModel) (s e : Point)
    (Hstart : resolveStart edge sourceNode = Some s)
    (Hend : resolveEnd edge targetNode = Some e) :
  let obstacles := obstaclesOf sourceNode targetNode allNodes in
  let count := checkAndCountObstructions obstacles in
  exists result,
    calculatePath edge sourceNode targetNode allNodes = Some result /\
    (count [s; e] = 0%nat -> result = [s; e]) /\
    (count [s; e] <> 0%nat ->
       (forall dx dy, In dx offsets -> In dy offsets ->
          skipped dx dy true = false ->
          (count result <= count (path1 s e dx dy))%nat /\
          (count result <= count (path2 s e dx dy))%nat) /\
       (forall dx1 dy1 dx2 dy2,
          In dx1 offsets -> In dy1 offsets -> In dx2 offsets -> In dy2 offsets ->
          (count result <= count (candidatePath s e dx1 dy1 dx2 dy2))%nat)) /\
    (y s == y e -> (count result <= count [s; e])%nat).
Proof.
  intros obstacles count. subst count. subst obstacles.
  set (obstacles := obstaclesOf sourceNode targetNode allNodes).
  destruct (calculatePath_cases edge sourceNode targetNode allNodes s e Hstart Hend)
    as [[Hclear Hdirect] | [Hobs [best [Hbest [Hmin [Hcand Hresult]]]]]];
    fold obstacles in Hclear || fold obstacles in Hobs, Hbest, Hmin.
  - exists [s; e]. split; [exact Hdirect|]. split; [reflexivity|]. split.
    + intro Hne. apply checkAndCountObstructions_zero in Hclear. congruence.
    + intros _. apply Nat.le_refl.
  - exists best. split; [exact Hresult|]. split; [|split].
    + intro Hzero. apply checkAndCountObstructions_zero in Hzero. congruence.
    + intros _. split.
      * intros dx dy Hdx Hdy Hskip.
        destruct (search_atMost_singleBend s e obstacles dx dy Hdx Hdy Hskip)
          as [H1 H2].
        split; eapply atMost_best; eauto.
      * intros dx1 dy1 dx2 dy2 H1 H2 H3 H4.
        eapply atMost_best; [exact Hmin|].
        apply search_atMost_doubleBend; assumption.
    + intro Hy.
      rewrite <- (zero_offsets_candidate_count obstacles s e Hy).
      eapply atMost_best; [exact Hmin|].
      apply search_atMost_doubleBend; left; reflexivity.
Qed.

Lemma calculatePath_ranked_result_witness :
  exists result,
    calculatePath (Examples.edgeBetween (mkPoint 0 0) (mkPoint 200 0))
      Examples.sourceNode Examples.targetNode Examples.blockedNodes = Some result /\
    (checkAndCountObstructions
       (obstaclesOf Examples.sourceNode Examples.targetNode Examples.blockedNodes)
       result
     <= checkAndCountObstructions
          (obstaclesOf Examples.sourceNode Examples.targetNode Examples.blockedNodes)
          [mkPoint 0 0; mkPoint 200 0])%nat.
Proof.
  destruct (calculatePath_ranked_result
              (Examples.edgeBetween (mkPoint 0 0) (mkPoint 200 0))
              Examples.sourceNode Examples.targetNode Examples.blockedNodes
              (mkPoint 0 0) (mkPoint 200 0) eq_refl eq_refl)
    as [result [Hresult [_ [_ Hhorizontal]]]].
  exists result. split; [exact Hresult|].
  apply Hhorizontal. reflexivity.
Defined.

(** C2, as the specification states it, fails.  On this diagonal edge
    the direct path meets one node; every bend candidate leaves the start
    anchor through one of the two nodes beside it and reaches the end
    anchor through one of the two nodes beside that, so the path returned
    meets two nodes. *)
Lemma obstruction_monotonicity_counterexample :
  calculatePath (Examples.edgeBetween (mkPoint 0 0) (mkPoint 1000 1000))
    Examples.sourceNode Examples.targetNode Examples.flankedNodes
  = Some (path1 (mkPoint 0 0) (mkPoint 1000 1000) 0 20) /\
  pathObstructionCount [mkPoint 0 0; mkPoint 1000 1000]
    (map getBBox
       (obstaclesOf Examples.sourceNode Examples.targetNode Examples.flankedNodes))
    = 1%nat /\
  pathObstructionCount (path1 (mkPoint 0 0) (mkPoint 1000 1000) 0 20)
    (map getBBox
       (obstaclesOf Examples.sourceNode Examples.targetNode Examples.flankedNodes))
    = 2%nat /\
  checkAndCountObstructions
    (obstaclesOf Examples.sourceNode Examples.targetNode Examples.flankedNodes)
    [mkPoint 0 0; mkPoint 1000 1000] = 1%nat /\
  checkAndCountObstructions
    (obstaclesOf Examples.sourceNode Examples.targetNode Examples.flankedNodes)
    (path1 (mkPoint 0 0) (mkPoint 1000 1000) 0 20) = 2%nat.
Proof.
  split; [vm_compute; reflexivity|].
  split; [vm_compute; reflexivity|].
  split; [vm_compute; reflexivity|].
  split; vm_compute; reflexivity.
Qed.

End CalculatePathFacts.

From Stdlib Require Import QNsatz.

(** ** The segment test against the geometry of the plane *)

Section SegmentFacts.
Import Geometry Invariants Plane.

Lemma orientation_turn (p q r : Point) :
  (turn p q r == 0 /\ orientation p q r = 0%nat) \/
  (0 < turn p q r /\ orientation p q r = 1%nat) \/
  (turn p q r < 0 /\ orientation p q r = 2%nat).
Proof.
  unfold orientation, Qgt_bool. fold (turn p q r).
  destruct (Qeq_bool (turn p q r) 0) eqn:Hz.
  - left. apply Qeq_bool_iff in Hz. auto.
  - right. apply Qeq_bool_neq in Hz.
    destruct (Qle_bool (turn p q r) 0) eqn:Hle; cbn [negb].
    + right. apply Qle_bool_iff in Hle. split; [|reflexivity].
      apply Qle_lteq in Hle. destruct Hle as [Hlt | Heq]; [exact Hlt | contradiction].
    + left. split; [|reflexivity].
      apply Qnot_le_lt. intro Hle'. apply Qle_bool_iff in Hle'. congruence.
Qed.

Lemma orientation_zero (p q r : Point) :
  turn p q r == 0 -> orientation p q r = 0%nat.
Proof.
  intro H. destruct (orientation_turn p q r) as [[_ Ho] | [[Ht _] | [Ht _]]];
    [exact Ho | lra | lra].
Qed.

Lemma orientation_opposite (p q r r' : Point) :
  (0 < turn p q r /\ turn p q r' < 0) \/ (turn p q r < 0 /\ 0 < turn p q r') ->
  Nat.eqb (orientation p q r) (orientation p q r') = false.
Proof.
  intro H.
  destruct (orientation_turn p q r) as [[Ht Ho] | [[Ht Ho] | [Ht Ho]]];
  destruct (orientation_turn p q r') as [[Ht' Ho'] | [[Ht' Ho'] | [Ht' Ho']]];
    rewrite Ho, Ho'; try reflexivity; destruct H as [[H1 H2] | [H1 H2]]; lra.
Qed.

(** The answer of [doLineSegmentsIntersect], as one disjunction. *)
Lemma doLineSegmentsIntersect_cases (p1 p2 p3 p4 : Point) :
  doLineSegmentsIntersect p1 p2 p3 p4 =
  (negb (Nat.eqb (orientation p1 p2 p3) (orientation p1 p2 p4)) &&
   negb (Nat.eqb (orientation p3 p4 p1) (orientation p3 p4 p2)))
  || (Nat.eqb (orientation p1 p2 p3) 0 && onSegment p1 p3 p2)
  || (Nat.eqb (orientation p1 p2 p4) 0 && onSegment p1 p4 p2)
  || (Nat.eqb (orientation p3 p4 p1) 0 && onSegment p3 p1 p4)
  || (Nat.eqb (orientation p3 p4 p2) 0 && onSegment p3 p2 p4).
Proof.
  unfold doLineSegmentsIntersect.
  destruct (negb (Nat.eqb (orientation p1 p2 p3) (orientation p1 p2 p4)) &&
            negb (Nat.eqb (orientation p3 p4 p1) (orientation p3 p4 p2)));
  destruct (Nat.eqb (orientation p1 p2 p3) 0 && onSegment p1 p3 p2);
  destruct (Nat.eqb (orientation p1 p2 p4) 0 && onSegment p1 p4 p2);
  destruct (Nat.eqb (orientation p3 p4 p1) 0 && onSegment p3 p1 p4);
  destruct (Nat.eqb (orientation p3 p4 p2) 0 && onSegment p3 p2 p4);
  reflexivity.
Qed.

Lemma onSegment_spec (p q r : Point) :
  onSegment p q r = true <->
  Qmin (x p) (x r) <= x q /\ x q <= Qmax (x p) (x r) /\
  Qmin (y p) (y r) <= y q /\ y q <= Qmax (y p) (y r).
Proof.
  unfold onSegment. rewrite !andb_true_iff, !Qle_bool_iff. tauto.
Qed.

Lemma convex_within (a b t : Q) :
  0 <= t -> t <= 1 -> Qmin a b <= a + t * (b - a) /\ a + t * (b - a) <= Qmax a b.
Proof.
  intros H0 H1.
  destruct (Qlt_le_dec a b) as [Hab | Hba].
  - rewrite (Q.min_l a b), (Q.max_r a b) by lra. split; nra.
  - rewrite (Q.min_r a b), (Q.max_l a b) by lra. split; nra.
Qed.

Lemma liesOn_onSegment (q p r : Point) :
  liesOn q p r -> onSegment p q r = true.
Proof.
  intros [t [H0 [H1 [Hx Hy]]]]. apply onSegment_spec.
  destruct (convex_within (x p) (x r) t H0 H1) as [Hx1 Hx2].
  destruct (convex_within (y p) (y r) t H0 H1) as [Hy1 Hy2].
  rewrite Hx, Hy. auto.
Qed.

Lemma liesOn_samePlace (q q' p r : Point) :
  samePlace q q' -> liesOn q p r -> liesOn q' p r.
Proof.
  intros [Hx Hy] [t [H0 [H1 [Htx Hty]]]]. exists t.
  rewrite <- Hx, <- Hy. auto.
Qed.

Lemma liesOn_start (p r : Point) : liesOn p p r.
Proof. exists 0. repeat split; try lra; ring. Qed.

Lemma liesOn_end (p r : Point) : liesOn r p r.
Proof. exists 1. repeat split; try lra; ring. Qed.

(** Where two segments share a point, the four numbers behind the
    orientations are multiples of one determinant. *)
Lemma shared_point_turns (p1 p2 p3 p4 X : Point) (t u : Q) :
  x X == x p1 + t * (x p2 - x p1) -> y X == y p1 + t * (y p2 - y p1) ->
  x X == x p3 + u * (x p4 - x p3) -> y X == y p3 + u * (y p4 - y p3) ->
  turn p1 p2 p3 ==
    - u * ((y p2 - y p1) * (x p4 - x p3) - (x p2 - x p1) * (y p4 - y p3)) /\
  turn p1 p2 p4 ==
    (1 - u) * ((y p2 - y p1) * (x p4 - x p3) - (x p2 - x p1) * (y p4 - y p3)) /\
  turn p3 p4 p1 ==
    t * ((y p2 - y p1) * (x p4 - x p3) - (x p2 - x p1) * (y p4 - y p3)) /\
  turn p3 p4 p2 ==
    - (1 - t) * ((y p2 - y p1) * (x p4 - x p3) - (x p2 - x p1) * (y p4 - y p3)).
Proof.
  intros H1 H2 H3 H4. unfold turn. repeat split; nsatz.
Qed.

(** Two parallel directions, the first not null, differ by a factor. *)
Lemma parallel_factor (dx dy ex ey : Q) :
  dy * ex - dx * ey == 0 -> ~ (dx == 0 /\ dy == 0) ->
  exists k, ex == k * dx /\ ey == k * dy.
Proof.
  intros HD Hd.
  destruct (Qeq_dec dx 0) as [Hdx | Hdx].
  - assert (Hdy : ~ dy == 0) by tauto.
    exists (ey / dy). split.
    + assert (Hex : ex * dy == 0) by nsatz.
      apply Qmult_integral in Hex. destruct Hex as [Hex | Hex]; [|contradiction].
      rewrite Hex, Hdx. ring.
    + field. exact Hdy.
  - exists (ex / dx). split.
    + field. exact Hdx.
    + field_simplify_eq; [|exact Hdx]. nsatz.
Qed.

Lemma all_or_true (b0 b1 b2 b3 b4 : bool) :
  b0 = true \/ b1 = true \/ b2 = true \/ b3 = true \/ b4 = true ->
  b0 || b1 || b2 || b3 || b4 = true.
Proof.
  intro H. destruct b0, b1, b2, b3, b4; try reflexivity.
  destruct H as [H | [H | [H | [H | H]]]]; discriminate.
Qed.

Lemma collinear_endpoint (p q r : Point) :
  turn p q r == 0 -> liesOn r p q ->
  Nat.eqb (orientation p q r) 0 && onSegment p r q = true.
Proof.
  intros Ht Hon. rewrite (orientation_zero p q r Ht).
  rewrite (liesOn_onSegment r p q Hon). reflexivity.
Qed.

(** Two overlapping segments on one line: an endpoint of one is a
    point of the other. *)
Lemma shared_point_parallel (p1 p2 p3 p4 X : Point) (t u : Q) :
  0 <= t -> t <= 1 -> 0 <= u -> u <= 1 ->
  x X == x p1 + t * (x p2 - x p1) -> y X == y p1 + t * (y p2 - y p1) ->
  x X == x p3 + u * (x p4 - x p3) -> y X == y p3 + u * (y p4 - y p3) ->
  (y p2 - y p1) * (x p4 - x p3) - (x p2 - x p1) * (y p4 - y p3) == 0 ->
  ~ (x p2 - x p1 == 0 /\ y p2 - y p1 == 0) ->
  Nat.eqb (orientation p1 p2 p3) 0 && onSegment p1 p3 p2 = true \/
  Nat.eqb (orientation p1 p2 p4) 0 && onSegment p1 p4 p2 = true \/
  Nat.eqb (orientation p3 p4 p1) 0 && onSegment p3 p1 p4 = true.
Proof.
  intros Ht0 Ht1 Hu0 Hu1 Hx1 Hy1 Hx3 Hy3 HD Hd.
  destruct (shared_point_turns p1 p2 p3 p4 X t u Hx1 Hy1 Hx3 Hy3)
    as [T3 [T4 [T1 _]]].
  rewrite HD in T3, T4, T1.
  destruct (parallel_factor _ _ _ _ HD Hd) as [k [Hex Hey]].
  assert (P3x : x p3 == x p1 + (t - u * k) * (x p2 - x p1)) by nsatz.
  assert (P3y : y p3 == y p1 + (t - u * k) * (y p2 - y p1)) by nsatz.
  assert (P4x : x p4 == x p1 + (t - u * k + k) * (x p2 - x p1)) by nsatz.
  assert (P4y : y p4 == y p1 + (t - u * k + k) * (y p2 - y p1)) by nsatz.
  destruct (Qlt_le_dec (t - u * k) 0) as [Ha0 | Ha0];
    [| destruct (Qlt_le_dec 1 (t - u * k)) as [Ha1 | Ha1]].
  3: { left. apply collinear_endpoint; [rewrite T3; ring|].
       exists (t - u * k). auto. }
  all: destruct (Qlt_le_dec (t - u * k + k) 0) as [Hb0 | Hb0];
    [| destruct (Qlt_le_dec 1 (t - u * k + k)) as [Hb1 | Hb1]].
  all: try (right; left; apply collinear_endpoint; [rewrite T4; ring|];
            exists (t - u * k + k); auto; fail).
  all: try (exfalso; nra).
  all: right; right; apply collinear_endpoint; [rewrite T1; ring|].
  all: assert (Hk : ~ k == 0) by (intro Hk; rewrite Hk in *; lra).
  all: exists (- (t - u * k) / k).
  all: assert (Hs : - (t - u * k) / k * k == - (t - u * k)) by (field; exact Hk).
  all: repeat split; try nra; nsatz.
Qed.

(** No missed crossing: two segments with a common point are reported
    as intersecting. *)
Lemma shared_point_intersects (p1 p2 p3 p4 X : Point) :
  liesOn X p1 p2 -> liesOn X p3 p4 ->
  doLineSegmentsIntersect p1 p2 p3 p4 = true.
Proof.
  intros [t [Ht0 [Ht1 [Hx1 Hy1]]]] [u [Hu0 [Hu1 [Hx3 Hy3]]]].
  destruct (shared_point_turns p1 p2 p3 p4 X t u Hx1 Hy1 Hx3 Hy3)
    as [T3 [T4 [T1 T2]]].
  set (D := (y p2 - y p1) * (x p4 - x p3) - (x p2 - x p1) * (y p4 - y p3)) in *.
  rewrite doLineSegmentsIntersect_cases. apply all_or_true.
  destruct (Qeq_dec u 0) as [Hu | Hu].
  { right; left. apply collinear_endpoint.
    - rewrite T3, Hu. ring.
    - exists t. repeat split; try assumption.
      + rewrite <- Hx1, Hx3, Hu. ring.
      + rewrite <- Hy1, Hy3, Hu. ring. }
  destruct (Qeq_dec u 1) as [Hu' | Hu'].
  { right; right; left. apply collinear_endpoint.
    - rewrite T4, Hu'. ring.
    - exists t. repeat split; try assumption.
      + rewrite <- Hx1, Hx3, Hu'. ring.
      + rewrite <- Hy1, Hy3, Hu'. ring. }
  destruct (Qeq_dec t 0) as [Ht | Ht].
  { right; right; right; left. apply collinear_endpoint.
    - rewrite T1, Ht. ring.
    - exists u. repeat split; try assumption.
      + rewrite <- Hx3, Hx1, Ht. ring.
      + rewrite <- Hy3, Hy1, Ht. ring. }
  destruct (Qeq_dec t 1) as [Ht' | Ht'].
  { right; right; right; right. apply collinear_endpoint.
    - rewrite T2, Ht'. ring.
    - exists u. repeat split; try assumption.
      + rewrite <- Hx3, Hx1, Ht'. ring.
      + rewrite <- Hy3, Hy1, Ht'. ring. }
  assert (Hu0' : 0 < u) by (apply Qle_lteq in Hu0; destruct Hu0 as [H | H];
                            [exact H | symmetry in H; contradiction]).
  assert (Hu1' : u < 1) by (apply Qle_lteq in Hu1; destruct Hu1 as [H | H];
                            [exact H | contradiction]).
  assert (Ht0' : 0 < t) by (apply Qle_lteq in Ht0; destruct Ht0 as [H | H];
                            [exact H | symmetry in H; contradiction]).
  assert (Ht1' : t < 1) by (apply Qle_lteq in Ht1; destruct Ht1 as [H | H];
                            [exact H | contradiction]).
  destruct (Q_dec D 0) as [[HD | HD] | HD].
  - (* D < 0 *)
    left. apply andb_true_iff. split; apply negb_true_iff.
    + apply orientation_opposite. left. rewrite T3, T4. split; nra.
    + apply orientation_opposite. right. rewrite T1, T2. split; nra.
  - (* D > 0 *)
    left. apply andb_true_iff. split; apply negb_true_iff.
    + apply orientation_opposite. right. rewrite T3, T4. split; nra.
    + apply orientation_opposite. left. rewrite T1, T2. split; nra.
  - (* parallel *)
    destruct (Qeq_dec (x p2 - x p1) 0) as [Hdx | Hdx];
      [destruct (Qeq_dec (y p2 - y p1) 0) as [Hdy | Hdy]|].
    + (* the first segment is a point *)
      right; right; right; left. apply collinear_endpoint.
      * rewrite T1, HD. ring.
      * exists u. repeat split; try assumption.
        -- rewrite <- Hx3, Hx1, Hdx. ring.
        -- rewrite <- Hy3, Hy1, Hdy. ring.
    + destruct (shared_point_parallel p1 p2 p3 p4 X t u) as [H | [H | H]];
        auto; tauto.
    + destruct (shared_point_parallel p1 p2 p3 p4 X t u) as [H | [H | H]];
        auto; tauto.
Qed.

(** *** No invented crossing *)

Lemma orientation_zero_turn (p q r : Point) :
  Nat.eqb (orientation p q r) 0 = true -> turn p q r == 0.
Proof.
  intro H. apply Nat.eqb_eq in H.
  destruct (orientation_turn p q r) as [[Ht _] | [[_ Ho] | [_ Ho]]];
    [exact Ht | congruence | congruence].
Qed.

Lemma orientation_differ (p q r r' : Point) :
  Nat.eqb (orientation p q r) (orientation p q r') = false ->
  (turn p q r <= 0 /\ 0 <= turn p q r' /\ turn p q r < turn p q r') \/
  (turn p q r' <= 0 /\ 0 <= turn p q r /\ turn p q r' < turn p q r).
Proof.
  intro H. apply Nat.eqb_neq in H.
  destruct (orientation_turn p q r) as [[Ht Ho] | [[Ht Ho] | [Ht Ho]]];
  destruct (orientation_turn p q r') as [[Ht' Ho'] | [[Ht' Ho'] | [Ht' Ho']]];
    try (exfalso; congruence); try (left; lra); try (right; lra).
Qed.

Lemma within_convex (a b v : Q) :
  Qmin a b <= v -> v <= Qmax a b -> ~ a == b ->
  0 <= (v - a) / (b - a) /\ (v - a) / (b - a) <= 1.
Proof.
  intros Hlo Hhi Hab.
  assert (Hs : (v - a) / (b - a) * (b - a) == v - a) by (field; lra).
  destruct (Qlt_le_dec a b) as [Hlt | Hge].
  - rewrite (Q.min_l a b) in Hlo by lra. rewrite (Q.max_r a b) in Hhi by lra.
    split; nra.
  - assert (Hgt : b < a).
    { apply Qle_lteq in Hge. destruct Hge as [H | H]; [exact H|].
      symmetry in H. contradiction. }
    rewrite (Q.min_r a b) in Hlo by lra. rewrite (Q.max_l a b) in Hhi by lra.
    split; nra.
Qed.

Lemma within_same (a v : Q) : Qmin a a <= v -> v <= Qmax a a -> v == a.
Proof.
  rewrite (Q.min_l a a), (Q.max_l a a) by lra. lra.
Qed.

(** A point on the line of a segment and within the segment's bounding
    box is a point of the segment. *)
Lemma collinear_in_box (p q r : Point) :
  turn p q r == 0 -> onSegment p r q = true -> liesOn r p q.
Proof.
  unfold turn. intros Ht Hbox. apply onSegment_spec in Hbox.
  destruct Hbox as [Hx1 [Hx2 [Hy1 Hy2]]].
  destruct (Qeq_dec (x p) (x q)) as [Hx | Hx].
  - rewrite <- Hx in Hx1, Hx2.
    pose proof (within_same _ _ Hx1 Hx2) as Hrx.
    destruct (Qeq_dec (y p) (y q)) as [Hy | Hy].
    + rewrite <- Hy in Hy1, Hy2.
      pose proof (within_same _ _ Hy1 Hy2) as Hry.
      exists 0. repeat split; try lra.
    + destruct (within_convex _ _ _ Hy1 Hy2 Hy) as [H0 H1].
      exists ((y r - y p) / (y q - y p)). repeat split; auto.
      * rewrite Hrx, <- Hx. ring.
      * field. lra.
  - destruct (within_convex _ _ _ Hx1 Hx2 Hx) as [H0 H1].
    exists ((x r - x p) / (x q - x p)). repeat split; auto.
    + field. lra.
    + field_simplify_eq; [|lra]. lra.
Qed.

(** The four side conditions of [doLineSegmentsIntersect] each give a
    shared endpoint. *)
Lemma collinear_case_shared (p q r r' : Point) :
  Nat.eqb (orientation p q r) 0 && onSegment p r q = true ->
  liesOn r p q.
Proof.
  intro H. apply andb_true_iff in H. destruct H as [Ho Hbox].
  apply collinear_in_box; [apply orientation_zero_turn; exact Ho | exact Hbox].
Qed.

(** Where the orientations differ on both segments, the two lines cross
    at a point of both. *)
Lemma crossing_point (p1 p2 p3 p4 : Point) :
  Nat.eqb (orientation p1 p2 p3) (orientation p1 p2 p4) = false ->
  Nat.eqb (orientation p3 p4 p1) (orientation p3 p4 p2) = false ->
  exists X, liesOn X p1 p2 /\ liesOn X p3 p4.
Proof.
  intros H12 H34.
  apply orientation_differ in H12. apply orientation_differ in H34.
  set (D := (y p2 - y p1) * (x p4 - x p3) - (x p2 - x p1) * (y p4 - y p3)).
  assert (HDv : D == turn p1 p2 p4 - turn p1 p2 p3) by (unfold D, turn; ring).
  assert (HDw : D == turn p3 p4 p1 - turn p3 p4 p2) by (unfold D, turn; ring).
  assert (HD : ~ D == 0) by (destruct H12 as [H | H]; lra).
  set (t := turn p3 p4 p1 / D).
  set (u := - turn p1 p2 p3 / D).
  assert (Ht : t * D == turn p3 p4 p1) by (unfold t; field; exact HD).
  assert (Hu : u * D == - turn p1 p2 p3) by (unfold u; field; exact HD).
  exists (mkPoint (x p1 + t * (x p2 - x p1)) (y p1 + t * (y p2 - y p1))).
  split.
  - exists t. cbn [x y]. repeat split; try reflexivity.
    + destruct H34 as [H | H]; nra.
    + destruct H34 as [H | H]; nra.
  - exists u. cbn [x y]. repeat split.
    + destruct H12 as [H | H]; nra.
    + destruct H12 as [H | H]; nra.
    + unfold t, u, D, turn. field. exact HD.
    + unfold t, u, D, turn. field. exact HD.
Qed.

(** No invented crossing: segments reported as intersecting have a
    common point. *)
Lemma intersects_shared_point (p1 p2 p3 p4 : Point) :
  doLineSegmentsIntersect p1 p2 p3 p4 = true ->
  exists X, liesOn X p1 p2 /\ liesOn X p3 p4.
Proof.
  rewrite doLineSegmentsIntersect_cases, !orb_true_iff.
  intros [[[[H | H] | H] | H] | H].
  - apply andb_true_iff in H. destruct H as [H12 H34].
    apply negb_true_iff in H12. apply negb_true_iff in H34.
    apply crossing_point; assumption.
  - exists p3. split; [apply (collinear_case_shared p1 p2 p3 p3 H) | apply liesOn_start].
  - exists p4. split; [apply (collinear_case_shared p1 p2 p4 p4 H) | apply liesOn_end].
  - exists p1. split; [apply liesOn_start | apply (collinear_case_shared p3 p4 p1 p1 H)].
  - exists p2. split; [apply liesOn_end | apply (collinear_case_shared p3 p4 p2 p2 H)].
Qed.

(** *** Segments and rectangles *)

Lemma anySideIntersects_true (p1 p2 : Point) (segs : list Side) :
  anySideIntersects p1 p2 segs = true <->
  exists seg, In seg segs /\
    doLineSegmentsIntersect p1 p2 (mkPoint (x1 seg) (y1 seg))
      (mkPoint (x2 seg) (y2 seg)) = true.
Proof.
  induction segs as [|seg rest IH]; cbn [anySideIntersects].
  - split; [discriminate | intros [seg [[] _]]].
  - destruct (doLineSegmentsIntersect p1 p2 (mkPoint (x1 seg) (y1 seg))
                (mkPoint (x2 seg) (y2 seg))) eqn:Hd.
    + split; [|reflexivity]. intros _. exists seg. split; [left; reflexivity | exact Hd].
    + rewrite IH. split.
      * intros [seg' [Hin Hd']]. exists seg'. split; [right; exact Hin | exact Hd'].
      * intros [seg' [[<- | Hin] Hd']]; [congruence|]. exists seg'. auto.
Qed.


Lemma between_param (lo hi v : Q) :
  lo <= v -> v <= hi ->
  (exists u, 0 <= u /\ u <= 1 /\ v == lo + u * (hi - lo)) /\
  (exists u, 0 <= u /\ u <= 1 /\ v == hi + u * (lo - hi)).
Proof.
  intros Hlo Hhi.
  destruct (Qeq_dec lo hi) as [Heq | Hne].
  - split; exists 0; repeat split; lra.
  - assert (Hs : (v - lo) / (hi - lo) * (hi - lo) == v - lo) by (field; lra).
    split.
    + exists ((v - lo) / (hi - lo)). repeat split; nra.
    + exists (1 - (v - lo) / (hi - lo)). repeat split; nra.
Qed.

(** A point within the bounds and on the border is a point of a side. *)
Lemma border_on_side (rect : Rect) (q : Point) :
  withinBounds q rect ->
  x q == minX rect \/ x q == maxX rect \/ y q == minY rect \/ y q == maxY rect ->
  exists seg, In seg (segments rect) /\
    liesOn q (mkPoint (x1 seg) (y1 seg)) (mkPoint (x2 seg) (y2 seg)).
Proof.
  intros [Hx1 [Hx2 [Hy1 Hy2]]] Hborder.
  destruct (between_param _ _ _ Hx1 Hx2) as [[ux [Hux0 [Hux1 Hux]]] [ux' [Hux0' [Hux1' Hux']]]].
  destruct (between_param _ _ _ Hy1 Hy2) as [[uy [Huy0 [Huy1 Huy]]] [uy' [Huy0' [Huy1' Huy']]]].
  destruct Hborder as [H | [H | [H | H]]].
  - exists (mkSide (minX rect) (maxY rect) (minX rect) (minY rect)).
    split; [cbn; auto|]. exists uy'. cbn [x y x1 y1 x2 y2].
    repeat split; auto. rewrite H. ring.
  - exists (mkSide (maxX rect) (minY rect) (maxX rect) (maxY rect)).
    split; [cbn; auto|]. exists uy. cbn [x y x1 y1 x2 y2].
    repeat split; auto. rewrite H. ring.
  - exists (mkSide (minX rect) (minY rect) (maxX rect) (minY rect)).
    split; [cbn; auto|]. exists ux. cbn [x y x1 y1 x2 y2].
    repeat split; auto. rewrite H. ring.
  - exists (mkSide (maxX rect) (maxY rect) (minX rect) (maxY rect)).
    split; [cbn; auto|]. exists ux'. cbn [x y x1 y1 x2 y2].
    repeat split; auto. rewrite H. ring.
Qed.

(** Along one coordinate: moving from [a] to a value [b] within
    [lo, hi], there is a first moment from which the value stays within
    [lo, hi]; unless [a] is within already, the value is on a bound then. *)
Lemma entry_moment (a b lo hi : Q) :
  lo <= b -> b <= hi ->
  exists s, 0 <= s /\ s <= 1 /\
    (forall s', s <= s' -> s' <= 1 ->
       lo <= a + s' * (b - a) /\ a + s' * (b - a) <= hi) /\
    ((s == 0 /\ lo <= a /\ a <= hi) \/
     a + s * (b - a) == lo \/ a + s * (b - a) == hi).
Proof.
  intros Hlo Hhi.
  destruct (Qlt_le_dec a lo) as [Hlow | Hlow];
    [| destruct (Qlt_le_dec hi a) as [Hhigh | Hhigh]].
  - assert (Hs : (lo - a) / (b - a) * (b - a) == lo - a) by (field; lra).
    exists ((lo - a) / (b - a)). split; [nra|]. split; [nra|]. split.
    + intros s' H1 H2. split; nra.
    + right; left. lra.
  - assert (Hs : (a - hi) / (a - b) * (a - b) == a - hi) by (field; lra).
    exists ((a - hi) / (a - b)). split; [nra|]. split; [nra|]. split.
    + intros s' H1 H2. split; nra.
    + right; right. nra.
  - exists 0. split; [lra|]. split; [lra|]. split.
    + intros s' H1 H2. split; nra.
    + left. repeat split; lra.
Qed.

(** From a point outside the rectangle to a point within it, the
    straight way touches the border. *)
Lemma entry_point (p q : Point) (rect : Rect) :
  withinBounds q rect -> ~ withinBounds p rect ->
  exists b, liesOn b p q /\ withinBounds b rect /\
    (x b == minX rect \/ x b == maxX rect \/
     y b == minY rect \/ y b == maxY rect).
Proof.
  intros [Hx1 [Hx2 [Hy1 Hy2]]] Hout.
  destruct (entry_moment (x p) (x q) _ _ Hx1 Hx2) as [sx [Hsx0 [Hsx1 [Hxin Hxb]]]].
  destruct (entry_moment (y p) (y q) _ _ Hy1 Hy2) as [sy [Hsy0 [Hsy1 [Hyin Hyb]]]].
  destruct (Qlt_le_dec sx sy) as [Hlt | Hle].
  - exists (mkPoint (x p + sy * (x q - x p)) (y p + sy * (y q - y p))).
    split; [exists sy; cbn [x y]; repeat split; auto; reflexivity|].
    destruct (Hxin sy) as [Hbx1 Hbx2]; [lra | lra |].
    destruct (Hyin sy) as [Hby1 Hby2]; [lra | lra |].
    split; [unfold withinBounds; cbn [x y]; auto|]. cbn [x y].
    destruct Hyb as [[Hz _] | [Hb | Hb]]; [lra | auto | auto].
  - exists (mkPoint (x p + sx * (x q - x p)) (y p + sx * (y q - y p))).
    split; [exists sx; cbn [x y]; repeat split; auto; reflexivity|].
    destruct (Hxin sx) as [Hbx1 Hbx2]; [lra | lra |].
    destruct (Hyin sx) as [Hby1 Hby2]; [lra | lra |].
    split; [unfold withinBounds; cbn [x y]; auto|]. cbn [x y].
    destruct Hxb as [[Hz [Hpx1 Hpx2]] | [Hb | Hb]]; [| auto | auto].
    assert (Hsy : sy == 0) by lra.
    destruct Hyb as [[_ [Hpy1 Hpy2]] | [Hb | Hb]].
    + exfalso. apply Hout. unfold withinBounds. auto.
    + right; right; left. rewrite Hz. rewrite Hsy in Hb. lra.
    + right; right; right. rewrite Hz. rewrite Hsy in Hb. lra.
Qed.

Lemma liesOn_prefix (b q p1 p2 : Point) :
  liesOn q p1 p2 -> liesOn b p1 q -> liesOn b p1 p2.
Proof.
  intros [t [Ht0 [Ht1 [Hqx Hqy]]]] [s [Hs0 [Hs1 [Hbx Hby]]]].
  exists (s * t). split; [nra|]. split; [nra|]. split.
  - rewrite Hbx, Hqx. ring.
  - rewrite Hby, Hqy. ring.
Qed.

(** No missed obstacle: a segment with a point within the bounds of the
    rectangle is reported as intersecting it. *)
Lemma segmentMeets_intersects (p1 p2 : Point) (rect : Rect) :
  segmentMeets p1 p2 rect -> isLineIntersectingRect p1 p2 rect = true.
Proof.
  intros [q [Hon Hin]]. unfold isLineIntersectingRect.
  destruct (Qeq_bool (x p1) (x p2) && Qeq_bool (y p1) (y p2)) eqn:Htriv.
  - apply trivial_segment_test in Htriv. destruct Htriv as [Hx Hy].
    apply pointInRect_spec.
    destruct Hon as [t [_ [_ [Hqx Hqy]]]].
    apply (withinBounds_same_coordinates q p1); [| | exact Hin].
    + rewrite Hqx, Hx. ring.
    + rewrite Hqy, Hy. ring.
  - destruct (pointInRect p1 rect) eqn:H1; [reflexivity|].
    destruct (pointInRect p2 rect) eqn:H2; [reflexivity|].
    assert (Hout : ~ withinBounds p1 rect).
    { intro H. apply pointInRect_spec in H. congruence. }
    destruct (entry_point p1 q rect Hin Hout) as [b [Hb [Hbin Hborder]]].
    destruct (border_on_side rect b Hbin Hborder) as [seg [Hseg Hside]].
    apply anySideIntersects_true. exists seg. split; [exact Hseg|].
    apply (shared_point_intersects p1 p2 _ _ b); [|exact Hside].
    apply (liesOn_prefix b q p1 p2); assumption.
Qed.


(** *** Paths and obstacles *)





(** *** Direction of a segment *)

Lemma liesOn_reverse (q p r : Point) : liesOn q p r -> liesOn q r p.
Proof.
  intros [t [H0 [H1 [Hx Hy]]]]. exists (1 - t).
  split; [lra|]. split; [lra|]. split.
  - rewrite Hx. ring.
  - rewrite Hy. ring.
Qed.

Lemma bool_same (a b : bool) : (a = true <-> b = true) -> a = b.
Proof. destruct a, b; intros [H1 H2]; auto; symmetry; auto. Qed.

Lemma doLineSegmentsIntersect_reversed (p1 p2 p3 p4 : Point) :
  doLineSegmentsIntersect p2 p1 p3 p4 = doLineSegmentsIntersect p1 p2 p3 p4 /\
  doLineSegmentsIntersect p1 p2 p4 p3 = doLineSegmentsIntersect p1 p2 p3 p4.
Proof.
  split; apply bool_same; split; intro H;
    destruct (intersects_shared_point _ _ _ _ H) as [q [H1 H2]];
    apply (shared_point_intersects _ _ _ _ q);
    auto using liesOn_reverse.
Qed.





End SegmentFacts.

(** ** The extension's [AvoidancePlugin]: properties *)

Section ExtensionFacts.
Import Geometry Invariants Plane AvoidancePlugin.

Lemma isLineIntersectRect_cases (p1 p2 : Point) (rect : Box) :
  isLineIntersectRect p1 p2 rect =
  pointInRect p1 (bounds rect) || pointInRect p2 (bounds rect)
  || doLineSegmentsIntersect p1 p2
       (mkPoint (boxX rect) (boxY rect))
       (mkPoint (boxX rect + width rect) (boxY rect))
  || doLineSegmentsIntersect p1 p2
       (mkPoint (boxX rect) (boxY rect + height rect))
       (mkPoint (boxX rect + width rect) (boxY rect + height rect))
  || doLineSegmentsIntersect p1 p2
       (mkPoint (boxX rect) (boxY rect))
       (mkPoint (boxX rect) (boxY rect + height rect))
  || doLineSegmentsIntersect p1 p2
       (mkPoint (boxX rect + width rect) (boxY rect))
       (mkPoint (boxX rect + width rect) (boxY rect + height rect)).
Proof.
  unfold isLineIntersectRect, isLineSegmentsIntersect, pointInRect, bounds.
  cbn [minX minY maxX maxY].
  destruct (Qle_bool (boxX rect) (x p1) && Qle_bool (x p1) (boxX rect + width rect) &&
            Qle_bool (boxY rect) (y p1) && Qle_bool (y p1) (boxY rect + height rect));
  destruct (Qle_bool (boxX rect) (x p2) && Qle_bool (x p2) (boxX rect + width rect) &&
            Qle_bool (boxY rect) (y p2) && Qle_bool (y p2) (boxY rect + height rect));
  cbn [orb]; try reflexivity.
  destruct (doLineSegmentsIntersect p1 p2 (mkPoint (boxX rect) (boxY rect))
              (mkPoint (boxX rect + width rect) (boxY rect)));
  destruct (doLineSegmentsIntersect p1 p2 (mkPoint (boxX rect) (boxY rect + height rect))
              (mkPoint (boxX rect + width rect) (boxY rect + height rect)));
  destruct (doLineSegmentsIntersect p1 p2 (mkPoint (boxX rect) (boxY rect))
              (mkPoint (boxX rect) (boxY rect + height rect)));
  destruct (doLineSegmentsIntersect p1 p2 (mkPoint (boxX rect + width rect) (boxY rect))
              (mkPoint (boxX rect + width rect) (boxY rect + height rect)));
  reflexivity.
Qed.

(** The four sides the extension tests are the four sides the other
    plugin tests, two of them walked the other way. *)
Lemma sides_agree (p1 p2 : Point) (rect : Box) :
  doLineSegmentsIntersect p1 p2
       (mkPoint (boxX rect) (boxY rect))
       (mkPoint (boxX rect + width rect) (boxY rect))
  || doLineSegmentsIntersect p1 p2
       (mkPoint (boxX rect) (boxY rect + height rect))
       (mkPoint (boxX rect + width rect) (boxY rect + height rect))
  || doLineSegmentsIntersect p1 p2
       (mkPoint (boxX rect) (boxY rect))
       (mkPoint (boxX rect) (boxY rect + height rect))
  || doLineSegmentsIntersect p1 p2
       (mkPoint (boxX rect + width rect) (boxY rect))
       (mkPoint (boxX rect + width rect) (boxY rect + height rect))
  = anySideIntersects p1 p2 (segments (bounds rect)).
Proof.
  unfold segments, bounds. cbn [anySideIntersects minX minY maxX maxY x1 y1 x2 y2].
  rewrite <- (proj2 (doLineSegmentsIntersect_reversed p1 p2
                       (mkPoint (boxX rect) (boxY rect + height rect))
                       (mkPoint (boxX rect + width rect) (boxY rect + height rect)))).
  rewrite <- (proj2 (doLineSegmentsIntersect_reversed p1 p2
                       (mkPoint (boxX rect) (boxY rect))
                       (mkPoint (boxX rect) (boxY rect + height rect)))).
  destruct (doLineSegmentsIntersect p1 p2 (mkPoint (boxX rect) (boxY rect))
              (mkPoint (boxX rect + width rect) (boxY rect)));
  destruct (doLineSegmentsIntersect p1 p2
              (mkPoint (boxX rect + width rect) (boxY rect + height rect))
              (mkPoint (boxX rect) (boxY rect + height rect)));
  destruct (doLineSegmentsIntersect p1 p2 (mkPoint (boxX rect) (boxY rect + height rect))
              (mkPoint (boxX rect) (boxY rect)));
  destruct (doLineSegmentsIntersect p1 p2 (mkPoint (boxX rect + width rect) (boxY rect))
              (mkPoint (boxX rect + width rect) (boxY rect + height rect)));
  reflexivity.
Qed.

(** The two tests differ on a segment of length zero only. *)
Lemma isLineIntersectRect_as_other (p1 p2 : Point) (rect : Box) :
  isLineIntersectRect p1 p2 rect =
  pointInRect p1 (bounds rect) || pointInRect p2 (bounds rect)
  || anySideIntersects p1 p2 (segments (bounds rect)).
Proof.
  rewrite isLineIntersectRect_cases, <- sides_agree.
  rewrite <- !orb_assoc. reflexivity.
Qed.


Lemma isLineIntersectRect_complete (p1 p2 : Point) (rect : Box) :
  segmentMeets p1 p2 (bounds rect) -> isLineIntersectRect p1 p2 rect = true.
Proof.
  intro Hmeet. rewrite isLineIntersectRect_as_other.
  pose proof (segmentMeets_intersects p1 p2 (bounds rect) Hmeet) as H.
  unfold isLineIntersectingRect in H.
  destruct (pointInRect p1 (bounds rect)) eqn:H1; [reflexivity|].
  destruct (pointInRect p2 (bounds rect)) eqn:H2; [reflexivity|].
  destruct (Qeq_bool (x p1) (x p2) && Qeq_bool (y p1) (y p2)); [discriminate|].
  exact H.
Qed.



(** *** [updateEdgePath] *)

Lemma segmentCollides_true (p q : Point) (obstacles : list Box) :
  segmentCollides p q obstacles = true <->
  exists obs, In obs obstacles /\ isLineIntersectRect p q obs = true.
Proof.
  induction obstacles as [|obs rest IH]; cbn [segmentCollides].
  - split; [discriminate | intros [obs [[] _]]].
  - destruct (isLineIntersectRect p q obs) eqn:Hobs.
    + split; [|reflexivity]. intros _. exists obs. split; [left; reflexivity | exact Hobs].
    + rewrite IH. split.
      * intros [obs' [Hin H]]. exists obs'. split; [right; exact Hin | exact H].
      * intros [obs' [[<- | Hin] H]]; [congruence|]. exists obs'. auto.
Qed.

Lemma candidateCollision_false_avoids (path : list Point) (obstacles : list Box) :
  candidateCollision path obstacles = false ->
  forall obs, In obs obstacles -> ~ pathMeets path (bounds obs).
Proof.
  induction path as [|p rest IH]; [intros _ obs _ []|].
  destruct rest as [|q rest]; [intros _ obs _ []|].
  cbn [candidateCollision pathMeets].
  destruct (segmentCollides p q obstacles) eqn:Hseg; [discriminate|].
  intros Hrest obs Hin [Hmeet | Hmeet].
  - apply isLineIntersectRect_complete in Hmeet.
    assert (Htrue : segmentCollides p q obstacles = true)
      by (apply segmentCollides_true; exists obs; auto).
    congruence.
  - exact (IH Hrest obs Hin Hmeet).
Qed.

(** What the loop over the obstacles ends with. *)
Lemma newPointsFrom_cases (padding : Q) (s e : Point)
    (obstacles remaining : list Box) :
  (newPointsFrom padding s e obstacles remaining = [s; e]) \/
  (exists obstacle, In obstacle remaining /\
     isLineIntersectRect s e obstacle = true /\
     (newPointsFrom padding s e obstacles remaining = candidateAbove padding s e obstacle \/
      newPointsFrom padding s e obstacles remaining = candidateLeft padding s e obstacle) /\
     candidateCollision (newPointsFrom padding s e obstacles remaining) obstacles = false).
Proof.
  induction remaining as [|obstacle rest IH]; [left; reflexivity|].
  cbn [newPointsFrom].
  destruct (isLineIntersectRect s e obstacle) eqn:Hdirect.
  - destruct (candidateCollision (candidateAbove padding s e obstacle) obstacles) eqn:H1;
      cbn [negb].
    + destruct (candidateCollision (candidateLeft padding s e obstacle) obstacles) eqn:H2;
        cbn [negb].
      * left; reflexivity.
      * right. exists obstacle. split; [left; reflexivity|]. auto.
    + right. exists obstacle. split; [left; reflexivity|]. auto.
  - destruct IH as [IH | [obs [Hin H]]]; [left; exact IH|].
    right. exists obs. split; [right; exact Hin | exact H].
Qed.


(** *** The filter of repeated points *)

Lemma segmentMeets_samePlace (p1 p2 q1 q2 : Point) (rect : Rect) :
  samePlace p1 q1 -> samePlace p2 q2 ->
  segmentMeets p1 p2 rect -> segmentMeets q1 q2 rect.
Proof.
  intros [H1x H1y] [H2x H2y] [q [[t [H0 [H1 [Hx Hy]]]] Hin]].
  exists q. split; [|exact Hin]. exists t.
  rewrite <- H1x, <- H1y, <- H2x, <- H2y. auto.
Qed.

Lemma samePoint_samePlace (p q : Point) :
  Extension.samePoint p q = true <-> samePlace p q.
Proof.
  unfold Extension.samePoint, samePlace.
  rewrite andb_true_iff, !Qeq_bool_iff. tauto.
Qed.

Lemma filterAfter_pathMeets (kept previous : Point) (points : list Point) (rect : Rect) :
  samePlace kept previous ->
  pathMeets (kept :: Extension.filterAfter previous points) rect ->
  pathMeets (previous :: points) rect.
Proof.
  revert kept previous.
  induction points as [|point rest IH]; intros kept previous Hsame; [intros []|].
  cbn [Extension.filterAfter].
  destruct (Extension.samePoint point previous) eqn:Hp; cbn [negb].
  - apply samePoint_samePlace in Hp. intro H.
    change (pathMeets (previous :: point :: rest) rect)
      with (segmentMeets previous point rect \/ pathMeets (point :: rest) rect).
    right. apply (IH kept point); [|exact H].
    destruct Hsame as [Hx Hy]. destruct Hp as [Hpx Hpy].
    split; [rewrite Hx, Hpx | rewrite Hy, Hpy]; reflexivity.
  - change (pathMeets (kept :: point :: Extension.filterAfter point rest) rect)
      with (segmentMeets kept point rect \/
            pathMeets (point :: Extension.filterAfter point rest) rect).
    change (pathMeets (previous :: point :: rest) rect)
      with (segmentMeets previous point rect \/ pathMeets (point :: rest) rect).
    intros [H | H].
    + left. apply (segmentMeets_samePlace kept point previous point);
        [exact Hsame | split; reflexivity | exact H].
    + right. apply (IH point point); [split; reflexivity | exact H].
Qed.

Lemma filterConsecutiveDuplicates_pathMeets (points : list Point) (rect : Rect) :
  pathMeets (Extension.filterConsecutiveDuplicates points) rect ->
  pathMeets points rect.
Proof.
  destruct points as [|first rest]; [intros []|].
  apply filterAfter_pathMeets. split; reflexivity.
Qed.

Lemma filterAfter_last (kept previous : Point) (points : list Point) (d : Point) :
  samePlace kept previous ->
  samePlace (last (kept :: Extension.filterAfter previous points) d)
            (last (previous :: points) d).
Proof.
  revert kept previous.
  induction points as [|point rest IH]; intros kept previous Hsame; [exact Hsame|].
  cbn [Extension.filterAfter].
  change (last (previous :: point :: rest) d) with (last (point :: rest) d).
  destruct (Extension.samePoint point previous) eqn:Hp; cbn [negb].
  - apply samePoint_samePlace in Hp. apply IH.
    destruct Hsame as [Hx Hy]. destruct Hp as [Hpx Hpy].
    split; [rewrite Hx, Hpx | rewrite Hy, Hpy]; reflexivity.
  - change (last (kept :: point :: Extension.filterAfter point rest) d)
      with (last (point :: Extension.filterAfter point rest) d).
    apply IH. split; reflexivity.
Qed.

Lemma filterAfter_length (previous : Point) (points : list Point) :
  (List.length (Extension.filterAfter previous points) <= List.length points)%nat.
Proof.
  revert previous. induction points as [|point rest IH]; intro previous; [apply Nat.le_refl|].
  cbn [Extension.filterAfter].
  destruct (negb (Extension.samePoint point previous)); cbn [List.length];
    specialize (IH point); lia.
Qed.



Lemma updateEdgePath_some (options : Options) (edgeModel : BaseEdgeModel)
    (allNodes : list BaseNodeModel) (pts : list Point)
    (s e : Point) (src tgt : BaseNodeModel) :
  edgeStartPoint edgeModel = Some s -> edgeEndPoint edgeModel = Some e ->
  edgeSourceNode edgeModel = Some src -> edgeTargetNode edgeModel = Some tgt ->
  updateEdgePath options edgeModel allNodes = Some pts ->
  enabled options = true /\
  pts = Extension.filterConsecutiveDuplicates
          (newPointsFrom (avoidPadding options) s e
             (obstaclesFor (avoidPadding options) src tgt allNodes)
             (obstaclesFor (avoidPadding options) src tgt allNodes)).
Proof.
  intros Hs He Hsrc Htgt. unfold updateEdgePath. rewrite Hs, He, Hsrc, Htgt.
  destruct (enabled options); cbn [negb]; [|discriminate].
  intro H. injection H as <-. auto.
Qed.



(** X14. The points list [updateEdgePath] assigns has no two equal
    neighbours, begins with the start point, ends at the place of the end
    point, and has from one to four points. *)
Theorem updateEdgePath_points_shape
    (options : Options) (edgeModel : BaseEdgeModel)
    (allNodes : list BaseNodeModel) (pts : list Point) (s e : Point)
    (Hstart : edgeStartPoint edgeModel = Some s)
    (Hend : edgeEndPoint edgeModel = Some e)
    (Hresult : updateEdgePath options edgeModel allNodes = Some pts) :
  Spec.noConsecutiveDuplicates pts /\
  hd_error pts = Some s /\
  samePlace (last pts s) e /\
  (1 <= List.length pts <= 4)%nat.
Proof.
  unfold updateEdgePath in Hresult. rewrite Hstart, Hend in Hresult.
  destruct (enabled options); cbn [negb] in Hresult; [|discriminate].
  destruct (edgeSourceNode edgeModel) as [src|]; [|discriminate].
  destruct (edgeTargetNode edgeModel) as [tgt|]; [|discriminate].
  injection Hresult as <-.
  set (obstacles := obstaclesFor (avoidPadding options) src tgt allNodes).
  split; [apply filterConsecutiveDuplicates_noConsecutiveDuplicates|].
  destruct (newPointsFrom_cases (avoidPadding options) s e obstacles obstacles)
    as [-> | [obstacle [_ [_ [[-> | ->] _]]]]];
    unfold candidateAbove, candidateLeft; cbn [Extension.filterConsecutiveDuplicates].
  - split; [reflexivity|]. split.
    + apply (filterAfter_last s s [e] s). split; reflexivity.
    + pose proof (filterAfter_length s [e]). cbn [List.length] in *. lia.
  - split; [reflexivity|]. split.
    + apply (filterAfter_last s s [_; _; e] s). split; reflexivity.
    + pose proof (filterAfter_length s
                    [mkPoint (x s) (boxY obstacle - avoidPadding options);
                     mkPoint (x e) (boxY obstacle - avoidPadding options); e]).
      cbn [List.length] in *. lia.
  - split; [reflexivity|]. split.
    + apply (filterAfter_last s s [_; _; e] s). split; reflexivity.
    + pose proof (filterAfter_length s
                    [mkPoint (boxX obstacle - avoidPadding options) (y s);
                     mkPoint (boxX obstacle - avoidPadding options) (y e); e]).
      cbn [List.length] in *. lia.
Qed.



Lemma updateEdgePath_points_shape_witness :
  hd_error
    (Extension.filterConsecutiveDuplicates
       (candidateAbove 10 (mkPoint 10 0) (mkPoint 190 0)
          (getExpandedNodeBox ExtensionExamples.middleNode 10)))
  = Some (mkPoint 10 0).
Proof.
  apply (updateEdgePath_points_shape defaultOptions ExtensionExamples.acrossEdge
           ExtensionExamples.diagram _ (mkPoint 10 0) (mkPoint 190 0)
           eq_refl eq_refl eq_refl).
Defined.

(** X15. A detour is assigned only when it is free of collisions: the
    points list [updateEdgePath] assigns is the direct path, or else no
    point of it is within the expanded box of any obstacle. *)
Theorem updateEdgePath_detour_is_clear
    (options : Options) (edgeModel : BaseEdgeModel)
    (allNodes : list BaseNodeModel) (pts : list Point)
    (s e : Point) (src tgt : BaseNodeModel)
    (Hstart : edgeStartPoint edgeModel = Some s)
    (Hend : edgeEndPoint edgeModel = Some e)
    (Hsource : edgeSourceNode edgeModel = Some src)
    (Htarget : edgeTargetNode edgeModel = Some tgt)
    (Hresult : updateEdgePath options edgeModel allNodes = Some pts) :
  pts = Extension.filterConsecutiveDuplicates [s; e] \/
  forall obs, In obs (obstaclesFor (avoidPadding options) src tgt allNodes) ->
    ~ pathMeets pts (bounds obs).
Proof.
  destruct (updateEdgePath_some _ _ _ _ _ _ _ _ Hstart Hend Hsource Htarget Hresult)
    as [_ ->].
  set (obstacles := obstaclesFor (avoidPadding options) src tgt allNodes).
  destruct (newPointsFrom_cases (avoidPadding options) s e obstacles obstacles)
    as [-> | [obstacle [_ [_ [_ Hclear]]]]]; [left; reflexivity|].
  right. intros obs Hin Hmeet.
  apply filterConsecutiveDuplicates_pathMeets in Hmeet.
  exact (candidateCollision_false_avoids _ _ Hclear obs Hin Hmeet).
Qed.

Lemma updateEdgePath_detour_is_clear_witness :
  updateEdgePath defaultOptions ExtensionExamples.acrossEdge ExtensionExamples.diagram
  = Some (Extension.filterConsecutiveDuplicates
            (candidateAbove 10 (mkPoint 10 0) (mkPoint 190 0)
               (getExpandedNodeBox ExtensionExamples.middleNode 10))) /\
  forall obs,
    In obs (obstaclesFor 10 ExtensionExamples.leftNode ExtensionExamples.rightNode
              ExtensionExamples.diagram) ->
    ~ pathMeets
        (Extension.filterConsecutiveDuplicates
           (candidateAbove 10 (mkPoint 10 0) (mkPoint 190 0)
              (getExpandedNodeBox ExtensionExamples.middleNode 10)))
        (bounds obs).
Proof.
  split; [reflexivity|].
  destruct (updateEdgePath_detour_is_clear defaultOptions ExtensionExamples.acrossEdge
              ExtensionExamples.diagram _ (mkPoint 10 0) (mkPoint 190 0)
              ExtensionExamples.leftNode ExtensionExamples.rightNode
              eq_refl eq_refl eq_refl eq_refl eq_refl) as [H | H].
  - vm_compute in H. discriminate H.
  - exact H.
Defined.















(** *** Switching on and off *)

Lemma listenersAfter_app (attached : bool) (calls1 calls2 : list HostCall) :
  listenersAfter attached (calls1 ++ calls2) =
  match listenersAfter attached calls1 with
  | Some attached' => listenersAfter attached' calls2
  | None => None
  end.
Proof.
  revert attached. induction calls1 as [|call rest IH]; intro attached; [reflexivity|].
  destruct call; cbn [app listenersAfter]; destruct attached; auto.
Qed.

Lemma padding_never_differs (newOptions : PartialOptions) (options : Options) :
  truthy (newAvoidPadding newOptions) &&
  differsFrom (newAvoidPadding newOptions) (avoidPadding (spread options newOptions))
  = false.
Proof.
  unfold spread. cbn [avoidPadding].
  destruct (newAvoidPadding newOptions) as [q|]; [|reflexivity].
  cbn [truthy differsFrom].
  assert (H : Qeq_bool q q = true) by (apply Qeq_bool_iff; reflexivity).
  rewrite H. apply andb_false_r.
Qed.

Lemma perform_listeners (op : Operation) (options : Options) :
  listenersAfter (enabled options) (snd (perform op options)) =
  Some (enabled (fst (perform op options))).
Proof.
  destruct op as [| | newOptions]; cbn [perform].
  - unfold enable. destruct (enabled options) eqn:He; cbn; rewrite ?He; reflexivity.
  - unfold disable. destruct (enabled options) eqn:He; cbn; rewrite ?He; reflexivity.
  - unfold setOptions. rewrite (padding_never_differs newOptions options).
    unfold spread. cbn [enabled].
    destruct (newEnabled newOptions) as [[|]|]; destruct (enabled options) eqn:He;
      cbn [negb andb fst snd enabled listenersAfter]; rewrite ?He; reflexivity.
Qed.

Lemma performAll_listeners (ops : list Operation) (options : Options) :
  listenersAfter (enabled options) (snd (performAll ops options)) =
  Some (enabled (fst (performAll ops options))).
Proof.
  revert options. induction ops as [|op rest IH]; intro options; [reflexivity|].
  cbn [performAll].
  pose proof (perform_listeners op options) as Hop.
  destruct (perform op options) as [options1 calls1]. cbn [fst snd] in Hop.
  specialize (IH options1).
  destruct (performAll rest options1) as [options2 calls2]. cbn [fst snd] in *.
  rewrite listenersAfter_app, Hop. exact IH.
Qed.

(** X19. Through construction and any sequence of [enable], [disable]
    and [setOptions], the listeners are registered exactly when the plugin
    is enabled: they are never registered twice, and never removed when
    not registered. *)
Theorem listeners_follow_enabled
    (initial : PartialOptions) (ops : list Operation) :
  listenersAfter false
    (snd (construct initial) ++ snd (performAll ops (fst (construct initial)))) =
  Some (enabled (fst (performAll ops (fst (construct initial))))).
Proof.
  rewrite listenersAfter_app.
  assert (Hc : listenersAfter false (snd (construct initial)) =
               Some (enabled (fst (construct initial)))).
  { unfold construct. cbn [fst snd].
    destruct (enabled (spread defaultOptions initial)); reflexivity. }
  rewrite Hc. apply performAll_listeners.
Qed.

(** X18. [setOptions] recalculates the edges only when it switches the
    plugin on.  On a plugin that is enabled it makes no call at all unless
    it disables it; in particular a new [avoidPadding] is stored without
    any edge being recalculated. *)
Theorem setOptions_recalculates_only_when_switched_on
    (options : Options) (newOptions : PartialOptions) :
  (In RecalculateAllEdges (snd (setOptions options newOptions)) <->
   enabled options = false /\ newEnabled newOptions = Some true) /\
  (enabled options = true -> newEnabled newOptions <> Some false ->
   setOptions options newOptions = (spread options newOptions, [])).
Proof.
  unfold setOptions.
  rewrite (padding_never_differs newOptions options).
  unfold spread. cbn [enabled].
  destruct (newEnabled newOptions) as [[|]|]; destruct (enabled options);
    cbn [negb andb fst snd In]; split;
    try (split; [intros [H | [H | H]] | intros [H1 H2]]);
    try (split; [intros [H | H] | intros [H1 H2]]);
    try (split; [intros H | intros [H1 H2]]);
    try discriminate; try contradiction; auto; try congruence.
Qed.



(** *** Overlapping boxes *)





End ExtensionFacts.

(** ** The router against the geometry of the plane *)

Section RouterGeometryFacts.
Import Geometry Router Invariants Plane Spec Reroute.









(** *** What the search returns *)




Lemma steps_from_first (s e : Point) (obstacles : list NodeModel) :
  Steps s e obstacles (consider obstacles (path1 s e 0 20) initialSearch)
    (search s e obstacles true).
Proof.
  unfold search.
  apply (Steps_trans s e obstacles _ (singleBend s e obstacles true initialSearch));
    [|apply doubleBend_Steps].
  unfold singleBend.
  apply (Steps_trans s e obstacles _
           (singleBendInner s e obstacles true 0 offsets initialSearch)).
  - change (singleBendInner s e obstacles true 0 offsets initialSearch)
      with (singleBendInner s e obstacles true 0 (tl offsets) initialSearch).
    apply singleBendInner_evaluated.
    + left; reflexivity.
    + right; left; reflexivity.
    + intros q Hq. right. right. exact Hq.
    + intro st'. apply singleBendInner_Steps; [left; reflexivity|].
      intros q Hq. right. right. exact Hq.
    + reflexivity.
  - apply (forUntilClear_head_Steps s e obstacles
             (fun dx => singleBendInner s e obstacles true dx offsets)
             0 (tl offsets) initialSearch).
    intros a st' Ha. apply singleBendInner_Steps; [|apply incl_refl].
    right; exact Ha.
Qed.

Lemma Steps_no_better (s e : Point) (obstacles : list NodeModel)
    (st st' : SearchState) (m : nat) :
  Steps s e obstacles st st' ->
  minObstructions st = Finite m ->
  (forall p, isCandidate s e p -> (m <= checkAndCountObstructions obstacles p)%nat) ->
  st' = st.
Proof.
  intros Hsteps Hmin Hall.
  induction Hsteps as [st | st st' p Hp _ IH]; [reflexivity|].
  assert (Hsame : consider obstacles p st = st).
  { unfold consider. rewrite Hmin. cbn [ltCount].
    destruct (Nat.ltb (checkAndCountObstructions obstacles p) m) eqn:Hlt;
      [|reflexivity].
    apply Nat.ltb_lt in Hlt. specialize (Hall p Hp). lia. }
  rewrite Hsame in IH. apply IH. exact Hmin.
Qed.

(** X7. Ties keep the first candidate: with the direct path obstructed,
    if no candidate meets fewer obstacles than the first one ranked (the
    single bend at offsets 0 and 20), that first candidate is the path
    returned. *)
Theorem calculatePath_keeps_first_on_ties
    (edge : EdgeModel) (sourceNode targetNode : NodeModel)
    (allNodes : list NodeModel) (s e : Point)
    (Hstart : resolveStart edge sourceNode = Some s)
    (Hend : resolveEnd edge targetNode = Some e)
    (Hobstructed :
       checkAndCountObstructions (obstaclesOf sourceNode targetNode allNodes) [s; e]
       <> 0%nat)
    (Hties : forall p, isCandidate s e p ->
       (checkAndCountObstructions (obstaclesOf sourceNode targetNode allNodes)
          (path1 s e 0 20)
        <= checkAndCountObstructions (obstaclesOf sourceNode targetNode allNodes) p)%nat) :
  calculatePath edge sourceNode targetNode allNodes = Some (path1 s e 0 20).
Proof.
  set (obstacles := obstaclesOf sourceNode targetNode allNodes) in *.
  destruct (calculatePath_cases edge sourceNode targetNode allNodes s e Hstart Hend)
    as [[Hclear _] | [_ [best [Hbest [_ [_ Hresult]]]]]];
    fold obstacles in Hclear || fold obstacles in Hbest.
  - apply checkAndCountObstructions_zero in Hclear. contradiction.
  - rewrite Hresult. f_equal.
    pose proof (Steps_no_better s e obstacles _ _ _
                  (steps_from_first s e obstacles) eq_refl Hties) as Hsame.
    rewrite Hsame in Hbest. cbn in Hbest. congruence.
Qed.




Lemma calculatePath_keeps_first_on_ties_witness :
  calculatePath (Examples.edgeBetween (mkPoint 0 0) (mkPoint 0 20))
    Examples.sourceNode Examples.targetNode Examples.coveringNodes
  = Some (path1 (mkPoint 0 0) (mkPoint 0 20) 0 20).
Proof.
  apply (calculatePath_keeps_first_on_ties
           (Examples.edgeBetween (mkPoint 0 0) (mkPoint 0 20))
           Examples.sourceNode Examples.targetNode Examples.coveringNodes
           (mkPoint 0 0) (mkPoint 0 20) eq_refl eq_refl).
  - vm_compute. discriminate.
  - intros p Hp.
    assert (Hobs : obstaclesOf Examples.sourceNode Examples.targetNode
                     Examples.coveringNodes =
                   [Examples.obstacleNode "cover"%string
                      (mkRect (-(5)) (-(5)) 5 5)]) by reflexivity.
    rewrite Hobs.
    assert (Hfirst : checkAndCountObstructions
                       [Examples.obstacleNode "cover"%string
                          (mkRect (-(5)) (-(5)) 5 5)]
                       (path1 (mkPoint 0 0) (mkPoint 0 20) 0 20) = 1%nat)
      by (vm_compute; reflexivity).
    rewrite Hfirst.
    destruct (isCandidate_shape _ _ p Hp) as [[b ->] | [b1 [b2 ->]]];
      rewrite checkAndCountObstructions_cons; unfold isPathIntersectingNode;
      cbn [isPathIntersectingRect];
      rewrite isLineIntersectingRect_endpoint by (left; vm_compute; reflexivity);
      lia.
Defined.

(** *** [rerouteEdge] *)

Lemma calculatePath_nonempty (edge : EdgeModel) (sourceNode targetNode : NodeModel)
    (allNodes : list NodeModel) (s e : Point) :
  resolveStart edge sourceNode = Some s ->
  resolveEnd edge targetNode = Some e ->
  exists bends,
    calculatePath edge sourceNode targetNode allNodes = Some (s :: bends ++ [e]).
Proof.
  intros Hs He.
  destruct (calculatePath_cases edge sourceNode targetNode allNodes s e Hs He)
    as [[_ Hdirect] | [_ [best [_ [_ [Hcand Hbest]]]]]].
  - exists []. exact Hdirect.
  - destruct (isCandidate_shape s e best Hcand) as [[b ->] | [b1 [b2 ->]]].
    + exists [b]. exact Hbest.
    + exists [b1; b2]. exact Hbest.
Qed.

Lemma calculatePath_empty (edge : EdgeModel) (sourceNode targetNode : NodeModel)
    (allNodes : list NodeModel) :
  calculatePath edge sourceNode targetNode allNodes = None \/
  calculatePath edge sourceNode targetNode allNodes = Some [] ->
  (resolveStart edge sourceNode = None \/ resolveEnd edge targetNode = None) /\
  orEmpty (pointsList edge) = [].
Proof.
  intro Hempty.
  destruct (resolveStart edge sourceNode) as [s|] eqn:Hs;
    [destruct (resolveEnd edge targetNode) as [e|] eqn:He|].
  - destruct (calculatePath_nonempty edge sourceNode targetNode allNodes s e Hs He)
      as [bends H].
    rewrite H in Hempty. destruct Hempty as [H' | H']; discriminate.
  - split; [right; reflexivity|].
    unfold calculatePath in Hempty. rewrite Hs, He in Hempty.
    destruct Hempty as [-> | ->]; reflexivity.
  - split; [left; reflexivity|].
    unfold calculatePath in Hempty. rewrite Hs in Hempty.
    destruct Hempty as [-> | ->]; reflexivity.
Qed.

(** X8. For an edge whose models are found and whose anchors resolve,
    [rerouteEdge] hands [updateEdgePoints] exactly the path
    [calculatePath] returns, from the start anchor to the end anchor; the
    fallback of [rerouteEdge] is not used. *)
Theorem rerouteEdge_applies_calculated_path
    (lf : Host) (edge : EdgeData) (id : string)
    (currentEdgeModel : EdgeModel) (sourceNode targetNode : NodeModel)
    (s e : Point)
    (Hid : edgeId edge = Some id)
    (Hnonempty : id <> ""%string)
    (Hmodel : getEdgeModelById lf id = Some currentEdgeModel)
    (Hsource : getNodeModelById lf (sourceNodeId edge) = Some sourceNode)
    (Htarget : getNodeModelById lf (targetNodeId edge) = Some targetNode)
    (Hstart : resolveStart currentEdgeModel sourceNode = Some s)
    (Hend : resolveEnd currentEdgeModel targetNode = Some e) :
  exists bends,
    calculatePath currentEdgeModel sourceNode targetNode (orEmpty (graphNodes lf))
      = Some (s :: bends ++ [e]) /\
    rerouteEdge lf (Some edge) = Some (id, s :: bends ++ [e]).
Proof.
  destruct (calculatePath_nonempty currentEdgeModel sourceNode targetNode
              (orEmpty (graphNodes lf)) s e Hstart Hend) as [bends Hpath].
  exists bends. split; [exact Hpath|].
  unfold rerouteEdge. rewrite Hid.
  apply String.eqb_neq in Hnonempty. rewrite Hnonempty.
  rewrite Hmodel, Hsource, Htarget, Hpath. reflexivity.
Qed.

(** X9. For an edge with an id whose edge model and node models are
    found, [rerouteEdge] always calls [updateEdgePoints], once: its last
    branch, which would leave the edge alone, is never reached.  When an
    anchor is missing and the edge model has points, those same points are
    handed back. *)
Theorem rerouteEdge_always_updates
    (lf : Host) (edge : EdgeData) (id : string)
    (currentEdgeModel : EdgeModel) (sourceNode targetNode : NodeModel)
    (Hid : edgeId edge = Some id)
    (Hnonempty : id <> ""%string)
    (Hmodel : getEdgeModelById lf id = Some currentEdgeModel)
    (Hsource : getNodeModelById lf (sourceNodeId edge) = Some sourceNode)
    (Htarget : getNodeModelById lf (targetNodeId edge) = Some targetNode) :
  (exists pts, rerouteEdge lf (Some edge) = Some (id, pts)) /\
  (forall p ps,
     resolveStart currentEdgeModel sourceNode = None \/
     resolveEnd currentEdgeModel targetNode = None ->
     pointsList currentEdgeModel = Some (p :: ps) ->
     rerouteEdge lf (Some edge) = Some (id, p :: ps)).
Proof.
  apply String.eqb_neq in Hnonempty.
  split.
  - unfold rerouteEdge. rewrite Hid, Hnonempty, Hmodel, Hsource, Htarget.
    destruct (calculatePath currentEdgeModel sourceNode targetNode
                (orEmpty (graphNodes lf))) as [[|p ps]|] eqn:Hpath.
    + destruct (calculatePath_empty _ _ _ _ (or_intror Hpath)) as [_ Hnone].
      destruct (getAnchorPositionAt lf sourceNode (dataStartPoint edge));
        [destruct (getAnchorPositionAt lf targetNode (dataEndPoint edge))|];
        try (eexists; reflexivity); rewrite Hnone; eexists; reflexivity.
    + eexists; reflexivity.
    + destruct (calculatePath_empty _ _ _ _ (or_introl Hpath)) as [_ Hnone].
      destruct (getAnchorPositionAt lf sourceNode (dataStartPoint edge));
        [destruct (getAnchorPositionAt lf targetNode (dataEndPoint edge))|];
        try (eexists; reflexivity); rewrite Hnone; eexists; reflexivity.
  - intros p ps Hmissing Hpoints.
    unfold rerouteEdge. rewrite Hid, Hnonempty, Hmodel, Hsource, Htarget.
    assert (Hpath : calculatePath currentEdgeModel sourceNode targetNode
                      (orEmpty (graphNodes lf)) = Some (p :: ps)).
    { unfold calculatePath. destruct Hmissing as [H | H]; rewrite H.
      - exact Hpoints.
      - destruct (resolveStart currentEdgeModel sourceNode); exact Hpoints. }
    rewrite Hpath. reflexivity.
Qed.



Lemma rerouteEdge_applies_calculated_path_witness :
  exists bends,
    calculatePath (Examples.edgeBetween (mkPoint 0 0) (mkPoint 200 0))
      Examples.sourceNode Examples.targetNode Examples.blockedNodes
      = Some (mkPoint 0 0 :: bends ++ [mkPoint 200 0]) /\
    rerouteEdge
      (RerouteExamples.diagramHost (Examples.edgeBetween (mkPoint 0 0) (mkPoint 200 0)))
      (Some RerouteExamples.edgeData)
      = Some ("e1"%string, mkPoint 0 0 :: bends ++ [mkPoint 200 0]).
Proof.
  apply (rerouteEdge_applies_calculated_path
           (RerouteExamples.diagramHost
              (Examples.edgeBetween (mkPoint 0 0) (mkPoint 200 0)))
           RerouteExamples.edgeData "e1"%string
           (Examples.edgeBetween (mkPoint 0 0) (mkPoint 200 0))
           Examples.sourceNode Examples.targetNode (mkPoint 0 0) (mkPoint 200 0)
           eq_refl); try reflexivity.
  discriminate.
Defined.

Lemma rerouteEdge_always_updates_witness :
  rerouteEdge (RerouteExamples.diagramHost Examples.looseEdge)
    (Some RerouteExamples.edgeData)
  = Some ("e1"%string, [mkPoint 1 2; mkPoint 3 4; mkPoint 5 6]).
Proof.
  refine (proj2 (rerouteEdge_always_updates
                   (RerouteExamples.diagramHost Examples.looseEdge)
                   RerouteExamples.edgeData "e1"%string Examples.looseEdge
                   Examples.sourceNode Examples.targetNode
                   eq_refl _ eq_refl eq_refl eq_refl) _ _ _ eq_refl).
  - discriminate.
  - left. reflexivity.
Defined.



End RouterGeometryFacts.
